(** * Consistent hashing with bounded loads: a shallow embedding of
      [consistent.go], [bin.go], [ball.go] and [errors.go]

    The Go structure [Consistent] becomes a record that is passed through
    every operation (the mutex is dropped: every method runs to completion
    under the lock).  Go maps are [gmap]s, the sorted position slice is a
    list, [uint64] and [int] values are integers with their wrap-around
    written out, and [float64] is IEEE binary64 as specified by
    [SpecFloat] (precision 53, maximal exponent 1024).  A run-time panic
    (nil dereference, index out of range, division by zero) is an
    explicit outcome.  The maps of the source hold pointers to copies of
    a [Bin] that are never written through, so they hold the [Bin] value
    here. *)

From Stdlib Require Import ZArith Lia Strings.Byte String List SpecFloat.
From Stdlib Require DecimalString.
From stdpp Require Import base tactics option list sorting gmap strings fin_maps.

Local Open Scope Z_scope.

(** ** Machine integers *)

Definition uint64 (z : Z) : Z := z mod 2 ^ 64.

(** Conversion of a [uint64] to Go's 64-bit [int] (two's complement). *)
Definition int_of_uint64 (z : Z) : Z :=
  if z <? 2 ^ 63 then z else z - 2 ^ 64.

(** ** float64 *)

Definition prec64 : Z := 53.
Definition emax64 : Z := 1024.

Definition float64 := spec_float.

(** [float64(n)] for an integer [n]: rounding to nearest, ties to even. *)
Definition float64_of_Z (n : Z) : float64 :=
  binary_normalize prec64 emax64 n 0 false.

Definition f64_one : float64 := float64_of_Z 1.
Definition f64_add : float64 -> float64 -> float64 := SFadd prec64 emax64.
Definition f64_mul : float64 -> float64 -> float64 := SFmul prec64 emax64.
Definition f64_div : float64 -> float64 -> float64 := SFdiv prec64 emax64.
Definition f64_leb : float64 -> float64 -> bool := SFleb.
Definition f64_ltb : float64 -> float64 -> bool := SFltb.

(** [math.Ceil]: the least integral value not below [x]; zeros, infinities
    and NaN are returned unchanged, and a negative value above [-1] gives
    the negative zero. *)
Definition f64_ceil (x : float64) : float64 :=
  match x with
  | S754_finite s m e =>
      if 0 <=? e then x
      else
        let q := Z.shiftr (Z.pos m) (- e) in
        let exact := Z.pos m mod 2 ^ (- e) =? 0 in
        if s then
          (if q =? 0 then S754_zero true
           else SFopp (float64_of_Z q))
        else float64_of_Z (if exact then q else q + 1)
  | _ => x
  end.

(** ** Strings and bytes *)

(** [fmt.Sprintf("%d", i)]. *)
Definition itoa (i : Z) : string :=
  DecimalString.NilZero.string_of_int (Z.to_int i).

(** [[]byte(s)]. *)
Definition bytes_of_string (s : string) : list byte :=
  list_byte_of_string s.

Definition byte_of_Z (z : Z) : byte :=
  match Byte.of_N (Z.to_N (z mod 256)) with
  | Some b => b
  | None => x00
  end.

(** [binary.LittleEndian.PutUint64] into a fresh 8-byte buffer. *)
Definition PutUint64 (v : Z) : list byte :=
  (fun k => byte_of_Z (Z.shiftr v (8 * k))) <$> [0; 1; 2; 3; 4; 5; 6; 7].

(** ** The hasher capability *)

(** [Hasher] is an interface with one method [Sum64([]byte) uint64]. *)
Definition Hasher := list byte -> Z.

Definition Sum64 (h : Hasher) (data : list byte) : Z := uint64 (h data).

(** The hasher of the test-suite: [hash/fnv]'s [New64] (FNV-1, 64 bit). *)
Definition fnv_offset64 : Z := 14695981039346656037.
Definition fnv_prime64 : Z := 1099511628211.

Definition fnv64 : Hasher := fun data =>
  fold_left
    (fun hash c => Z.lxor (uint64 (hash * fnv_prime64)) (Z.of_N (Byte.to_N c)))
    data fnv_offset64.

(** ** bin.go, ball.go, errors.go *)

Record Bin := mkBin { Name : string; PartitionIDs : list Z }.

Definition NewBin (name : string) : Bin :=
  {| Name := name; PartitionIDs := [] |}.

Definition Bin_String (b : Bin) : string := Name b.

(** A ball is handed both to [FindPartitionID], which takes a byte slice,
    and compared through [String()]: it is a byte slice whose [String]
    method renders those bytes. *)
Definition Ball := list byte.

Definition Ball_String (b : Ball) : string := string_of_list_byte b.

Inductive error :=
  | ErrInsufficientBins
  | ErrBallNotFound
  | ErrBinNotFound
  | ErrBinAlreadyExist
  | ErrInsufficientPartitionCapacity.

(** Outcome of a call: a normal return or a run-time panic.  [Diverged]
    is what a bounded loop gives when its budget is used up; the budgets
    below are never used up (see [distributeWithLoad_terminates]). *)
Inductive result (A : Type) :=
  | Ret (a : A)
  | Panic
  | Diverged.
Arguments Ret {A} a.
Arguments Panic {A}.
Arguments Diverged {A}.

(** ** consistent.go *)

(** The field [Hasher] of the source is [Hasher_] here, since the name is
    taken by the interface. *)
Record Config := mkConfig {
  Hasher_ : Hasher;
  Partition : Z;
  ReplicationFactor : Z;
  LoadBalancingParameter : float64
}.

Record Consistent := mkConsistent {
  hasher : Hasher;
  partition : Z;
  replicationFactor : Z;
  loadBalancingParameter : float64;
  loads : gmap string (list Z);
  bins : gmap string Bin;
  balls : gmap Z Ball;
  partitions : gmap Z Bin;
  ring : gmap Z Bin;
  sortedSet : list Z
}.

Definition set_tables (c : Consistent)
    (ps : gmap Z Bin) (ls : gmap string (list Z)) : Consistent :=
  {| hasher := hasher c; partition := partition c;
     replicationFactor := replicationFactor c;
     loadBalancingParameter := loadBalancingParameter c;
     loads := ls; bins := bins c; balls := balls c;
     partitions := ps; ring := ring c; sortedSet := sortedSet c |}.

Definition set_partitions (c : Consistent) (ps : gmap Z Bin) : Consistent :=
  set_tables c ps (loads c).

Definition set_balls (c : Consistent) (bs : gmap Z Ball) : Consistent :=
  {| hasher := hasher c; partition := partition c;
     replicationFactor := replicationFactor c;
     loadBalancingParameter := loadBalancingParameter c;
     loads := loads c; bins := bins c; balls := bs;
     partitions := partitions c; ring := ring c; sortedSet := sortedSet c |}.

Definition set_ring (c : Consistent)
    (r : gmap Z Bin) (s : list Z) (bs : gmap string Bin) : Consistent :=
  {| hasher := hasher c; partition := partition c;
     replicationFactor := replicationFactor c;
     loadBalancingParameter := loadBalancingParameter c;
     loads := loads c; bins := bs; balls := balls c;
     partitions := partitions c; ring := r; sortedSet := s |}.

(** [sort.Slice] with the comparison [<] on [uint64] values: the result
    is the ascending arrangement of the slice, which is unique. *)
Definition sort_ascending (l : list Z) : list Z := merge_sort Z.le l.

(** Label of the [i]-th replica as [add] builds it: ["%d%s"]. *)
Definition add_label (i : Z) (b : Bin) : list byte :=
  bytes_of_string (itoa i +:+ Bin_String b).

(** Label of the [i]-th replica as [Remove] builds it: ["%s%d"]. *)
Definition remove_label (i : Z) (b : Bin) : list byte :=
  bytes_of_string (Bin_String b +:+ itoa i).

(** The indices [0, 1, ..., n-1] of a counting loop ([n <= 0]: none). *)
Definition upto (n : Z) : list Z := seqZ 0 n.

(** [add]: one ring position per replica, then sort, then register. *)
Definition add (c : Consistent) (bin : Bin) : Consistent :=
  let '(r, s) :=
    fold_left
      (fun '(r, s) i =>
         let h := Sum64 (hasher c) (add_label i bin) in
         (<[h := bin]> r, s ++ [h]))
      (upto (replicationFactor c)) (ring c, sortedSet c) in
  set_ring c r (sort_ascending s) (<[Bin_String bin := bin]> (bins c)).

(** [delSlice]: drop the first occurrence of [val]. *)
Fixpoint delSlice (s : list Z) (val : Z) : list Z :=
  match s with
  | [] => []
  | x :: s' => if x =? val then s' else x :: delSlice s' val
  end.

(** [MaximumLoad]. *)
Definition MaximumLoad (c : Consistent) : float64 :=
  let load :=
    f64_mul
      (f64_div (float64_of_Z (partition c))
               (float64_of_Z (Z.of_nat (size (bins c)))))
      (loadBalancingParameter c) in
  f64_ceil load.

(** [s[i]]: indexing outside the slice panics ([None]). *)
Definition at_index (s : list Z) (i : Z) : option Z :=
  if i <? 0 then None else s !! Z.to_nat i.

(** [loads[name]]: a missing key reads as the nil slice. *)
Definition load_of (ls : gmap string (list Z)) (name : string) : list Z :=
  default [] (ls !! name).

(** The loop of [distributeWithLoad].  [count] is the value of the
    counter before its increment. *)
Fixpoint distributeWithLoad_loop (fuel : nat) (c : Consistent)
    (maxLoad : float64) (partID : Z) (count idx : Z)
    (ps : gmap Z Bin) (ls : gmap string (list Z))
  : result (gmap Z Bin * gmap string (list Z) * option error) :=
  match fuel with
  | O => Diverged
  | S fuel' =>
      let count := count + 1 in
      if Z.of_nat (length (sortedSet c)) <=? count then
        Ret (ps, ls, Some ErrInsufficientPartitionCapacity)
      else
        match at_index (sortedSet c) idx with
        | None => Panic
        | Some i =>
            match ring c !! i with
            | None => Panic
            | Some bin =>
                let load :=
                  float64_of_Z (Z.of_nat (length (load_of ls (Bin_String bin)))) in
                if f64_leb (f64_add load f64_one) maxLoad then
                  Ret (<[partID := bin]> ps,
                       <[Bin_String bin := load_of ls (Bin_String bin) ++ [partID]]> ls,
                       None)
                else
                  let idx := idx + 1 in
                  let idx :=
                    if Z.of_nat (length (sortedSet c)) <=? idx then 0 else idx in
                  distributeWithLoad_loop fuel' c maxLoad partID count idx ps ls
            end
        end
  end.

Definition distributeWithLoad (c : Consistent) (partID : Z) (idx : Z)
    (ps : gmap Z Bin) (ls : gmap string (list Z))
  : result (gmap Z Bin * gmap string (list Z) * option error) :=
  distributeWithLoad_loop (S (length (sortedSet c))) c (MaximumLoad c)
    partID 0 idx ps ls.

(** [sort.Search(n, f)]: binary search for the least index in [[0, n)]
    at which [f] holds ([n] if there is none, for a monotone [f]). *)
Fixpoint Search_loop (fuel : nat) (f : Z -> bool) (i j : Z) : Z :=
  match fuel with
  | O => i
  | S fuel' =>
      if i <? j then
        let h := Z.shiftr (i + j) 1 in
        if f h then Search_loop fuel' f i h
        else Search_loop fuel' f (h + 1) j
      else i
  end.

Definition Search (n : Z) (f : Z -> bool) : Z :=
  Search_loop (S (Z.to_nat n)) f 0 n.

(** The index at which the walk for the anchor hash [key] starts. *)
Definition start_index (c : Consistent) (key : Z) : Z :=
  let n := Z.of_nat (length (sortedSet c)) in
  let idx :=
    Search n (fun i =>
      match at_index (sortedSet c) i with
      | Some x => key <=? x
      | None => false
      end) in
  if n <=? idx then 0 else idx.

(** The loop of [distributePartitions] over the partition ids. *)
Fixpoint distribute_loop (c : Consistent) (ids : list Z)
    (ps : gmap Z Bin) (ls : gmap string (list Z))
  : result (gmap Z Bin * gmap string (list Z) * option error) :=
  match ids with
  | [] => Ret (ps, ls, None)
  | partID :: ids' =>
      let key := Sum64 (hasher c) (PutUint64 partID) in
      let idx := start_index c key in
      match distributeWithLoad c (int_of_uint64 partID) idx ps ls with
      | Ret (ps', ls', None) => distribute_loop c ids' ps' ls'
      | r => r
      end
  end.

(** The fresh load table: an empty slice for every registered bin. *)
Definition initial_loads (bs : gmap string Bin) : gmap string (list Z) :=
  list_to_map ((fun kb => (Bin_String kb.2, [])) <$> map_to_list bs).

(** [distributePartitions]: the new tables replace the old ones only
    when every partition has found a bin. *)
Definition distributePartitions (c : Consistent)
  : result (Consistent * option error) :=
  match distribute_loop c (upto (partition c)) ∅ (initial_loads (bins c)) with
  | Ret (ps, ls, None) => Ret (set_tables c ps ls, None)
  | Ret (_, _, Some e) => Ret (c, Some e)
  | Panic => Panic
  | Diverged => Diverged
  end.

(** [FindPartitionID]: the remainder panics when [partition] is zero. *)
Definition FindPartitionID (c : Consistent) (key : list byte) : result Z :=
  if partition c =? 0 then Panic
  else Ret (int_of_uint64 (Sum64 (hasher c) key mod partition c)).

(** [relocate]: groups the balls by partition id in a local map, which
    is dropped when the function returns. *)
Fixpoint relocate_loop (c : Consistent) (bs : list (Z * Ball))
    (newBalls : gmap Z (list Ball)) : result (gmap Z (list Ball)) :=
  match bs with
  | [] => Ret newBalls
  | (_, ball) :: bs' =>
      match FindPartitionID c ball with
      | Ret partID =>
          relocate_loop c bs'
            (<[partID := default [] (newBalls !! partID) ++ [ball]]> newBalls)
      | Panic => Panic
      | Diverged => Diverged
      end
  end.

Definition relocate (c : Consistent) : result unit :=
  match relocate_loop c (map_to_list (balls c)) ∅ with
  | Ret _ => Ret tt
  | Panic => Panic
  | Diverged => Diverged
  end.

(** [Add]. *)
Definition Add (c : Consistent) (bin : Bin) : result (Consistent * option error) :=
  match bins c !! Bin_String bin with
  | Some _ => Ret (c, Some ErrBinAlreadyExist)
  | None =>
      let c := add c bin in
      match distributePartitions c with
      | Ret (c, None) =>
          match relocate c with
          | Ret _ => Ret (c, None)
          | Panic => Panic
          | Diverged => Diverged
          end
      | r => r
      end
  end.

(** [Remove]. *)
Definition Remove (c : Consistent) (bin : Bin) : result (Consistent * option error) :=
  match bins c !! Bin_String bin with
  | None => Ret (c, None)
  | Some _ =>
      let '(r, s) :=
        fold_left
          (fun '(r, s) i =>
             let h := Sum64 (hasher c) (remove_label i bin) in
             (delete h r, delSlice s h))
          (upto (replicationFactor c)) (ring c, sortedSet c) in
      let c := set_ring c r s (delete (Bin_String bin) (bins c)) in
      if Z.of_nat (size (bins c)) =? 0 then Ret (set_partitions c ∅, None)
      else distributePartitions c
  end.

(** [New].  The initial bin slice may be [nil] ([None]) or an actual,
    possibly empty, slice. *)
Definition empty_consistent (cfg : Config) : Consistent :=
  {| hasher := Hasher_ cfg;
     partition := uint64 (Partition cfg);
     replicationFactor := ReplicationFactor cfg;
     loadBalancingParameter := LoadBalancingParameter cfg;
     loads := ∅; bins := ∅; balls := ∅; partitions := ∅; ring := ∅;
     sortedSet := [] |}.

Definition New (cfg : Config) (bs : option (list Bin))
  : result (Consistent + error) :=
  let c := fold_left add (default [] bs) (empty_consistent cfg) in
  match bs with
  | None => Ret (inl c)
  | Some _ =>
      match distributePartitions c with
      | Ret (c, None) => Ret (inl c)
      | Ret (_, Some e) => Ret (inr e)
      | Panic => Panic
      | Diverged => Diverged
      end
  end.

(** [Locate]. *)
Definition Locate (c : Consistent) (ball : Ball)
  : result (Consistent * option Bin) :=
  match FindPartitionID c ball with
  | Ret partID =>
      let c := set_balls c (<[partID := ball]> (balls c)) in
      Ret (c, partitions c !! partID)
  | Panic => Panic
  | Diverged => Diverged
  end.

(** [Delete]. *)
Definition Delete (c : Consistent) (ball : Ball)
  : Consistent * option error :=
  let same (b : Ball) := String.eqb (Ball_String b) (Ball_String ball) in
  let exist := existsb (fun kb => same kb.2) (map_to_list (balls c)) in
  let newBalls := filter (fun kb => same kb.2 = false) (balls c) in
  if exist then (set_balls c newBalls, None)
  else (c, Some ErrBallNotFound).

(** ** The query surface of consistent.go *)

(** [GetBin]: the registered bin of that name, or [ErrBinNotFound]. *)
Definition GetBin (c : Consistent) (name : string) : Bin + error :=
  match bins c !! name with
  | Some bin => inl bin
  | None => inr ErrBinNotFound
  end.

(** [GetBalls]: the balls registered under the partitions of the bin's
    slice of the load table, in the order of the slice; a partition
    without a ball is skipped. *)
Definition GetBalls (c : Consistent) (bin : Bin) : list Ball + error :=
  match loads c !! Bin_String bin with
  | None => inr ErrBinNotFound
  | Some partitionIDs => inl (omap (fun id => balls c !! id) partitionIDs)
  end.

(** [GetBins]: the registered bins.  Go leaves the order of a map
    iteration open; the list is to be read up to rearrangement. *)
Definition GetBins (c : Consistent) : list Bin := (map_to_list (bins c)).*2.

(** [GetPartitionOwner]: [None] is the nil pointer. *)
Definition GetPartitionOwner (c : Consistent) (partID : Z) : option Bin :=
  partitions c !! partID.

(** [LoadDistribution]. *)
Definition LoadDistribution (c : Consistent) : gmap string float64 :=
  (fun ps => float64_of_Z (Z.of_nat (length ps))) <$> loads c.

(** Running a list of [Add] calls, all of which must succeed. *)
Fixpoint Add_all (c : Consistent) (bs : list Bin) : option Consistent :=
  match bs with
  | [] => Some c
  | b :: bs' =>
      match Add c b with
      | Ret (c', None) => Add_all c' bs'
      | _ => None
      end
  end.

(** The concatenation of all per-bin partition lists of a load table. *)
Definition all_loads (ls : gmap string (list Z)) : list Z :=
  concat ((map_to_list ls).*2).

(** ** Notions used in the statements *)

(** The structure and the returned value of a call that returned. *)
Definition state_of {E : Type} (r : result (Consistent * E)) (d : Consistent)
  : Consistent :=
  match r with
  | Ret (c, _) => c
  | _ => d
  end.

Definition outcome {E : Type} (r : result (Consistent * E)) : option E :=
  match r with
  | Ret (_, e) => Some e
  | _ => None
  end.

(** The structure after a series of [Add] calls that all succeeded. *)
Definition added (o : option Consistent) (d : Consistent) : Consistent :=
  default d o.

(** The two tables agree and account for the processed ids. *)
Definition covers (done : list Z)
    (ps : gmap Z Bin) (ls : gmap string (list Z)) : Prop :=
  (forall p, is_Some (ps !! p) <-> p ∈ done) /\
  (forall p b, ps !! p = Some b -> p ∈ load_of ls (Bin_String b)) /\
  all_loads ls ≡ₚ done.

(** Every non-empty slice of the load table has passed the load test, and
    once a partition is placed the ceiling is not below zero. *)
Definition load_bounded (maxLoad : float64) (done : list Z)
    (ls : gmap string (list Z)) : Prop :=
  (forall n l, ls !! n = Some l ->
     l = [] \/ f64_leb (float64_of_Z (Z.of_nat (length l))) maxLoad = true) /\
  (done <> [] -> f64_leb (float64_of_Z 0) maxLoad = true).

(** What holds of the two tables after each partition id of a pass. *)
Definition pass_invariant (c : Consistent) (done : list Z)
    (ps : gmap Z Bin) (ls : gmap string (list Z)) : Prop :=
  covers done ps ls /\
  (forall n, is_Some (initial_loads (bins c) !! n) -> is_Some (ls !! n)) /\
  (Z.of_nat (length done) < 2 ^ 53 -> load_bounded (MaximumLoad c) done ls).

(** The tables that a distribution pass on [c] produces, if it succeeds. *)
Definition pass_tables (c : Consistent)
  : result (gmap Z Bin * gmap string (list Z) * option error) :=
  distribute_loop c (upto (partition c)) ∅ (initial_loads (bins c)).

(** The ring positions of a bin. *)
Definition replica_hashes (h : Hasher) (rf : Z) (b : Bin) : list Z :=
  (fun i => Sum64 h (add_label i b)) <$> upto rf.

(** No element of [l1] occurs in [l2]. *)
Definition disjointb (l1 l2 : list Z) : bool :=
  forallb (fun x => negb (existsb (Z.eqb x) l2)) l1.

(** No position is shared by two different names of the list. *)
Definition collision_free (h : Hasher) (rf : Z) (names : list string) : bool :=
  forallb (fun a =>
    forallb (fun b =>
      String.eqb a b
      || disjointb (replica_hashes h rf (NewBin a)) (replica_hashes h rf (NewBin b)))
      names) names.

(** The ring after the positions [hs] have been given to [b]. *)
Definition ring_insert_all (hs : list Z) (b : Bin) (r : gmap Z Bin) : gmap Z Bin :=
  fold_left (fun r h => <[h := b]> r) hs r.

(** [shl p k] is [p * 2 ^ k]. *)
Definition shl (p : positive) (k : nat) : positive := Nat.iter k xO p.

(** Every position of the sorted set has a bin on the ring. *)
Definition ring_covers (c : Consistent) : Prop :=
  forall h, h ∈ sortedSet c -> is_Some (ring c !! h).

(** The index that follows [idx] on the walk of [distributeWithLoad]. *)
Definition next_index (c : Consistent) (idx : Z) : Z :=
  let idx := idx + 1 in
  if Z.of_nat (length (sortedSet c)) <=? idx then 0 else idx.

(** The index of the [k]-th probe of a walk that starts at [idx]. *)
Definition probe_index (c : Consistent) (idx : Z) (k : nat) : Z :=
  Nat.iter k (next_index c) idx.

(** The bin at a ring index, and the load test of [distributeWithLoad]. *)
Definition bin_at (c : Consistent) (idx : Z) : option Bin :=
  h ← at_index (sortedSet c) idx; ring c !! h.

Definition has_room (c : Consistent) (ls : gmap string (list Z)) (bin : Bin) : bool :=
  f64_leb
    (f64_add (float64_of_Z (Z.of_nat (length (load_of ls (Bin_String bin))))) f64_one)
    (MaximumLoad c).

(** Every key of the ball registry is a partition id. *)
Definition balls_in_range (c : Consistent) : Prop :=
  forall p, is_Some (balls c !! p) -> 0 <= p < partition c.

(** The owner of every partition holds it in its slice of the load
    table. *)
Definition tables_agree (c : Consistent) : Prop :=
  forall p b, partitions c !! p = Some b ->
    p ∈ load_of (loads c) (Bin_String b).

(** The structure that a successful [New] returns. *)
Definition constructed (r : result (Consistent + error)) (d : Consistent)
  : Consistent :=
  match r with
  | Ret (inl c) => c
  | _ => d
  end.

(** The load ceiling in the words of the specification,
    [ceil((partitionCount / binCount) * loadBalancingParameter)], in exact
    arithmetic: the least integer not below [(P / B) * L], where the
    configured parameter [L] is the rational [±m * 2^e] that the binary64
    value denotes.  It is stated for [0 < B]; to be compared with
    [MaximumLoad], which rounds the quotient and the product to binary64
    before it takes the ceiling. *)
Definition spec_ceiling (P B : Z) (L : float64) : option Z :=
  match L with
  | S754_zero _ => Some 0
  | S754_finite s m e =>
      let num := P * cond_Zopp s (Z.pos m) * 2 ^ Z.max e 0 in
      let den := B * 2 ^ Z.max (- e) 0 in
      Some (- (- num / den))
  | _ => None
  end.

(** ** Configurations and structures used in the examples *)

(** [0.5], [1.2] and [1.1] as binary64 values; [1.0] is [f64_one]. *)
Definition f64_half : float64 := S754_finite false 4503599627370496 (-53).
Definition f64_1_2 : float64 := S754_finite false 5404319552844595 (-52).
Definition f64_1_1 : float64 := S754_finite false 4953959590107546 (-52).

Definition cfg_small : Config :=
  {| Hasher_ := fnv64; Partition := 1; ReplicationFactor := 2;
     LoadBalancingParameter := f64_one |}.

Definition cfg_single : Config :=
  {| Hasher_ := fnv64; Partition := 1; ReplicationFactor := 1;
     LoadBalancingParameter := f64_one |}.

Definition cfg_tight : Config :=
  {| Hasher_ := fnv64; Partition := 2; ReplicationFactor := 3;
     LoadBalancingParameter := f64_half |}.

Definition cfg_colliding : Config :=
  {| Hasher_ := fun _ => 0; Partition := 1; ReplicationFactor := 2;
     LoadBalancingParameter := f64_one |}.

Definition node0 : Bin := NewBin "node0".
Definition node1 : Bin := NewBin "node1".

(** One bin and one located ball, then a second bin is added. *)
Definition st_small_0 : Consistent := empty_consistent cfg_small.
Definition st_small_1 : Consistent := state_of (Add st_small_0 node0) st_small_0.
Definition st_small_1b : Consistent :=
  state_of (Locate st_small_1 (bytes_of_string "data0")) st_small_1.
Definition st_small_2 : Consistent := state_of (Add st_small_1b node1) st_small_1b.

(** Three configurations that [TestNew] expects [New] to reject. *)
Definition cfg_zero_partition : Config :=
  {| Hasher_ := fnv64; Partition := 0; ReplicationFactor := 10;
     LoadBalancingParameter := f64_1_2 |}.

Definition cfg_negative_replication : Config :=
  {| Hasher_ := fnv64; Partition := 20; ReplicationFactor := -1;
     LoadBalancingParameter := f64_1_2 |}.

Definition cfg_zero_load_parameter : Config :=
  {| Hasher_ := fnv64; Partition := 20; ReplicationFactor := 10;
     LoadBalancingParameter := S754_zero false |}.

(** Two partitions and a ceiling of one: the only bin cannot take both. *)
Definition st_tight_0 : Consistent := empty_consistent cfg_tight.
Definition st_tight_1 : Consistent := state_of (Add st_tight_0 node0) st_tight_0.

(** The only bin of [st_small_1] is removed. *)
Definition st_small_removed : Consistent :=
  state_of (Remove st_small_1 node0) st_small_1.

(** Two bins with one replica each and two partitions; the tables after
    partition 0 has been placed. *)
Definition cfg_pair : Config :=
  {| Hasher_ := fnv64; Partition := 2; ReplicationFactor := 1;
     LoadBalancingParameter := f64_one |}.

Definition st_pair : Consistent :=
  fold_left add [node0; node1] (empty_consistent cfg_pair).

Definition pair_partitions_1 : gmap Z Bin := {[ 0 := node1 ]}.
Definition pair_loads_1 : gmap string (list Z) :=
  <[ "node1"%string := [0] ]> {[ "node0"%string := [] ]}.

(** The configuration of the test-suite: 23 partitions, 21 replicas. *)
Definition cfg_test : Config :=
  {| Hasher_ := fnv64; Partition := 23; ReplicationFactor := 21;
     LoadBalancingParameter := f64_1_1 |}.

Definition node2 : Bin := NewBin "node2".
Definition node3 : Bin := NewBin "node3".

Definition st_test : Consistent :=
  fold_left add [node0; node1; node2; node3] (empty_consistent cfg_test).
Definition st_test_distributed : Consistent :=
  state_of (distributePartitions st_test) st_test.

(** The four bins of the test-suite, added in two different orders. *)
Definition names_a : list string := ["node0"; "node1"; "node2"; "node3"]%string.
Definition names_b : list string := ["node2"; "node0"; "node3"; "node1"]%string.

Definition st_test_a : Consistent :=
  added (Add_all (empty_consistent cfg_test) (NewBin <$> names_a))
        (empty_consistent cfg_test).
Definition st_test_b : Consistent :=
  added (Add_all (empty_consistent cfg_test) (NewBin <$> names_b))
        (empty_consistent cfg_test).

(** 116 partitions over seven bins with the load parameter [1.75]
    ([7 * 2^-2], exact in binary64): [116/7] is not a binary64 value, and
    the rounded product lies just above 29. *)
Definition f64_1_75 : float64 := S754_finite false 7881299347898368 (-52).

Definition cfg_rounding : Config :=
  {| Hasher_ := fnv64; Partition := 116; ReplicationFactor := 3;
     LoadBalancingParameter := f64_1_75 |}.

Definition node4 : Bin := NewBin "node4".
Definition node5 : Bin := NewBin "node5".
Definition node6 : Bin := NewBin "node6".

Definition st_rounding : Consistent :=
  fold_left add [node0; node1; node2; node3; node4; node5; node6]
    (empty_consistent cfg_rounding).
Definition st_rounding_distributed : Consistent :=
  state_of (distributePartitions st_rounding) st_rounding.

(** No partitions, one bin and an infinite load parameter. *)
Definition cfg_no_partition : Config :=
  {| Hasher_ := fnv64; Partition := 0; ReplicationFactor := 3;
     LoadBalancingParameter := S754_infinity false |}.

Definition st_no_partition : Consistent :=
  add (empty_consistent cfg_no_partition) node0.
Definition st_no_partition_distributed : Consistent :=
  state_of (distributePartitions st_no_partition) st_no_partition.

(** Two bins under a hasher that maps every label to position 0. *)
Definition st_collide_ab : Consistent :=
  added (Add_all (empty_consistent cfg_colliding) [node0; node1])
        (empty_consistent cfg_colliding).
Definition st_collide_ba : Consistent :=
  added (Add_all (empty_consistent cfg_colliding) [node1; node0])
        (empty_consistent cfg_colliding).

(** * Properties *)

(** ** Termination of the bounded loops *)

Lemma distributeWithLoad_loop_terminates fuel c maxLoad partID count idx ps ls :
  0 <= count <= Z.of_nat (length (sortedSet c)) ->
  Z.of_nat (length (sortedSet c)) - count < Z.of_nat fuel ->
  distributeWithLoad_loop fuel c maxLoad partID count idx ps ls <> Diverged.
Proof.
  revert count idx.
  induction fuel as [|fuel IH]; intros count idx Hc Hf; [lia|].
  simpl. destruct (Z.leb_spec (Z.of_nat (length (sortedSet c))) (count + 1));
    [discriminate|].
  destruct (at_index (sortedSet c) idx) as [h|]; [|discriminate].
  destruct (ring c !! h); [|discriminate].
  destruct (f64_leb _ _); [discriminate|].
  apply IH; lia.
Qed.

Lemma distributeWithLoad_terminates c partID idx ps ls :
  distributeWithLoad c partID idx ps ls <> Diverged.
Proof.
  unfold distributeWithLoad.
  apply distributeWithLoad_loop_terminates; lia.
Qed.

Lemma distribute_loop_terminates c ids ps ls :
  distribute_loop c ids ps ls <> Diverged.
Proof.
  revert ps ls. induction ids as [|p ids IH]; intros ps ls; simpl; [discriminate|].
  pose proof (distributeWithLoad_terminates c (int_of_uint64 p)
                (start_index c (Sum64 (hasher c) (PutUint64 p))) ps ls) as Ht.
  destruct (distributeWithLoad _ _ _ _ _) as [[[ps' ls'] [e|]]| |];
    try discriminate; [apply IH|contradiction].
Qed.

Lemma distributePartitions_terminates c : distributePartitions c <> Diverged.
Proof.
  unfold distributePartitions.
  pose proof (distribute_loop_terminates c (upto (partition c)) ∅
                (initial_loads (bins c))) as Ht.
  destruct (distribute_loop _ _ _ _) as [[[ps ls] [e|]]| |];
    try discriminate; contradiction.
Qed.

Lemma relocate_terminates c : relocate c <> Diverged.
Proof.
  unfold relocate.
  assert (forall bs nb, relocate_loop c bs nb <> Diverged) as H.
  { induction bs as [|[k b] bs IH]; intros nb; simpl; [discriminate|].
    unfold FindPartitionID. destruct (partition c =? 0); [discriminate|apply IH]. }
  specialize (H (map_to_list (balls c)) ∅).
  destruct (relocate_loop _ _ _); try discriminate; contradiction.
Qed.

(** Every public mutator returns or panics within its loop budgets. *)
Lemma Add_terminates c bin : Add c bin <> Diverged.
Proof.
  unfold Add. destruct (bins c !! Bin_String bin); [discriminate|].
  pose proof (distributePartitions_terminates (add c bin)) as Hd.
  destruct (distributePartitions _) as [[c' [e|]]| |];
    try discriminate; [|contradiction].
  pose proof (relocate_terminates c') as Hr.
  destruct (relocate c'); try discriminate; contradiction.
Qed.

(** The binary search of [sort.Search] halves a non-empty interval, so the
    budget [S n] is never used up: any larger budget gives the same index. *)
Lemma Search_loop_fuel f fuel1 fuel2 i j :
  j - i < Z.of_nat fuel1 -> j - i < Z.of_nat fuel2 ->
  Search_loop fuel1 f i j = Search_loop fuel2 f i j.
Proof.
  revert fuel2 i j.
  induction fuel1 as [|fuel1 IH]; intros [|fuel2] i j H1 H2; simpl.
  - reflexivity.
  - destruct (Z.ltb_spec i j); [lia|reflexivity].
  - destruct (Z.ltb_spec i j); [lia|reflexivity].
  - destruct (Z.ltb_spec i j); [|reflexivity].
    assert (i <= Z.shiftr (i + j) 1 < j) as Hh.
    { rewrite Z.shiftr_div_pow2 by lia. change (2 ^ 1) with 2.
      split; [apply Z.div_le_lower_bound|apply Z.div_lt_upper_bound]; lia. }
    destruct (f _); apply IH; lia.
Qed.

Lemma Search_range n f : 0 <= n -> 0 <= Search n f <= n.
Proof.
  intros Hn. unfold Search.
  assert (forall fuel i j, 0 <= i <= j -> i <= Search_loop fuel f i j <= j) as H.
  { induction fuel as [|fuel IH]; intros i j Hij; simpl; [lia|].
    destruct (Z.ltb_spec i j); [|lia].
    assert (i <= Z.shiftr (i + j) 1 < j) as Hh.
    { rewrite Z.shiftr_div_pow2 by lia. change (2 ^ 1) with 2.
      split; [apply Z.div_le_lower_bound|apply Z.div_lt_upper_bound]; lia. }
    destruct (f _).
    - specialize (IH i (Z.shiftr (i + j) 1)). lia.
    - specialize (IH (Z.shiftr (i + j) 1 + 1) j). lia. }
  specialize (H (S (Z.to_nat n)) 0 n). lia.
Qed.

(** The walk always starts at a valid index of a non-empty ring. *)
Lemma start_index_range c key :
  sortedSet c <> [] ->
  0 <= start_index c key < Z.of_nat (length (sortedSet c)).
Proof.
  intros Hne. unfold start_index.
  set (n := Z.of_nat (length (sortedSet c))).
  assert (0 < n) by (unfold n; destruct (sortedSet c); simpl in *; [done|lia]).
  pose proof (Search_range n (fun i =>
      match at_index (sortedSet c) i with
      | Some x => key <=? x
      | None => false
      end) ltac:(lia)) as Hs.
  destruct (Z.leb_spec n (Search n (fun i =>
      match at_index (sortedSet c) i with
      | Some x => key <=? x
      | None => false
      end))); lia.
Qed.

(** ** What one call changes *)

Lemma add_frame c bin :
  hasher (add c bin) = hasher c /\ partition (add c bin) = partition c /\
  replicationFactor (add c bin) = replicationFactor c /\
  loadBalancingParameter (add c bin) = loadBalancingParameter c /\
  loads (add c bin) = loads c /\ balls (add c bin) = balls c /\
  partitions (add c bin) = partitions c /\
  bins (add c bin) = <[Bin_String bin := bin]> (bins c).
Proof. unfold add. destruct (fold_left _ _ _). repeat split. Qed.

Lemma at_index_elem s i x : at_index s i = Some x -> x ∈ s.
Proof.
  unfold at_index. destruct (i <? 0); [done|]. apply list_elem_of_lookup_2.
Qed.

(** A probe of [distributeWithLoad] either reports the capacity error and
    leaves both tables alone, or gives the partition to a bin of the ring
    that passed the load test. *)
Lemma distributeWithLoad_loop_Ret fuel c maxLoad partID count idx ps ls ps' ls' e :
  distributeWithLoad_loop fuel c maxLoad partID count idx ps ls = Ret (ps', ls', e) ->
  (e = Some ErrInsufficientPartitionCapacity /\ ps' = ps /\ ls' = ls) \/
  (e = None /\ exists h bin,
      h ∈ sortedSet c /\ ring c !! h = Some bin /\
      f64_leb (f64_add (float64_of_Z (Z.of_nat (length (load_of ls (Bin_String bin)))))
                       f64_one) maxLoad = true /\
      ps' = <[partID := bin]> ps /\
      ls' = <[Bin_String bin := load_of ls (Bin_String bin) ++ [partID]]> ls).
Proof.
  revert count idx.
  induction fuel as [|fuel IH]; intros count idx; simpl; [discriminate|].
  destruct (Z.of_nat (length (sortedSet c)) <=? count + 1).
  { intros [= <- <- <-]. by left. }
  destruct (at_index (sortedSet c) idx) as [h|] eqn:Hh; [|discriminate].
  destruct (ring c !! h) as [bin|] eqn:Hb; [|discriminate].
  destruct (f64_leb _ _) eqn:Hle; [|apply IH].
  intros [= <- <- <-]. right. split; [done|].
  exists h, bin. repeat split; try done.
  by eapply at_index_elem.
Qed.

Lemma distribute_loop_cons c partID ids ps ls :
  distribute_loop c (partID :: ids) ps ls =
  match distributeWithLoad c (int_of_uint64 partID)
          (start_index c (Sum64 (hasher c) (PutUint64 partID))) ps ls with
  | Ret (ps', ls', None) => distribute_loop c ids ps' ls'
  | r => r
  end.
Proof. reflexivity. Qed.

Lemma distribute_loop_error c ids ps ls ps' ls' e :
  distribute_loop c ids ps ls = Ret (ps', ls', Some e) ->
  e = ErrInsufficientPartitionCapacity.
Proof.
  revert ps ls. induction ids as [|p ids IH]; intros ps ls; simpl; [discriminate|].
  destruct (distributeWithLoad _ _ _ _ _) as [[[ps1 ls1] [e1|]]| |] eqn:Hd;
    try discriminate; [|apply IH].
  intros [= -> -> ->].
  apply distributeWithLoad_loop_Ret in Hd as [(? & _)|(? & _)]; congruence.
Qed.

Lemma distributePartitions_Ret c c' e :
  distributePartitions c = Ret (c', e) ->
  (e = Some ErrInsufficientPartitionCapacity /\ c' = c) \/
  (e = None /\ exists ps ls,
      distribute_loop c (upto (partition c)) ∅ (initial_loads (bins c))
        = Ret (ps, ls, None) /\
      c' = set_tables c ps ls).
Proof.
  unfold distributePartitions.
  destruct (distribute_loop _ _ _ _) as [[[ps ls] [e1|]]| |] eqn:Hd;
    try discriminate; intros [= <- <-].
  - left. by rewrite (distribute_loop_error _ _ _ _ _ _ _ Hd).
  - right. split; [done|]. by exists ps, ls.
Qed.

Lemma Add_Ret c bin c' e :
  Add c bin = Ret (c', e) ->
  (e = Some ErrBinAlreadyExist /\ c' = c /\ is_Some (bins c !! Bin_String bin)) \/
  (bins c !! Bin_String bin = None /\
   distributePartitions (add c bin) = Ret (c', e)).
Proof.
  unfold Add. destruct (bins c !! Bin_String bin) eqn:Hb.
  { intros [= <- <-]. left. eauto. }
  intros H. right. split; [done|].
  destruct (distributePartitions (add c bin)) as [[c1 [e1|]]| |];
    try discriminate; [done|].
  destruct (relocate c1); try discriminate. done.
Qed.

Lemma New_nil cfg : New cfg None = Ret (inl (empty_consistent cfg)).
Proof. reflexivity. Qed.

Lemma distributeWithLoad_empty_ring c partID idx ps ls :
  sortedSet c = [] ->
  distributeWithLoad c partID idx ps ls
    = Ret (ps, ls, Some ErrInsufficientPartitionCapacity).
Proof. intros H. unfold distributeWithLoad. simpl. by rewrite H. Qed.

(** On a ring with a single position no bin is ever probed: the pass
    reports the capacity error whatever the load ceiling is. *)
Lemma distributeWithLoad_single_position c partID idx ps ls :
  (length (sortedSet c) <= 1)%nat ->
  distributeWithLoad c partID idx ps ls
    = Ret (ps, ls, Some ErrInsufficientPartitionCapacity).
Proof.
  intros H. unfold distributeWithLoad. simpl.
  destruct (Z.leb_spec (Z.of_nat (length (sortedSet c))) (0 + 1)); [done|lia].
Qed.

(** ** The public operations that run a distribution pass *)

Lemma New_runs_pass cfg bs c' :
  New cfg (Some bs) = Ret (inl c') ->
  distributePartitions (fold_left add bs (empty_consistent cfg)) = Ret (c', None).
Proof.
  unfold New. simpl.
  destruct (distributePartitions _) as [[c1 [e|]]| |]; try discriminate.
  by intros [= ->].
Qed.

Lemma New_of_pass cfg bs c c' :
  c = fold_left add bs (empty_consistent cfg) ->
  distributePartitions c = Ret (c', None) ->
  New cfg (Some bs) = Ret (inl c').
Proof. intros ->. unfold New. simpl. by intros ->. Qed.

Lemma Add_runs_pass c bin c' :
  Add c bin = Ret (c', None) ->
  distributePartitions (add c bin) = Ret (c', None).
Proof. intros H. by apply Add_Ret in H as [(? & _)|(_ & H)]. Qed.

Lemma Remove_runs_pass c bin c' :
  is_Some (bins c !! Bin_String bin) ->
  Remove c bin = Ret (c', None) -> bins c' <> ∅ ->
  exists c1, partition c1 = partition c /\ bins c1 = bins c' /\
    distributePartitions c1 = Ret (c', None).
Proof.
  intros [b Hb]. unfold Remove. rewrite Hb.
  destruct (fold_left _ _ _) as [r s]. simpl.
  destruct (Z.eqb_spec (Z.of_nat (size (delete (Bin_String bin) (bins c)))) 0)
    as [E|E].
  - intros [= <-]. simpl. intros Hne. exfalso. apply Hne.
    apply map_size_empty_iff. lia.
  - intros H _. eexists. split; [|split; [|exact H]]; [done|].
    apply distributePartitions_Ret in H as [(? & _)|(_ & ps & ls & _ & ->)];
      [discriminate|done].
Qed.

(** ** Reading the outcome of a call on a concrete structure *)

Lemma Ret_by_parts {E : Type} (r : result (Consistent * E)) (d : Consistent) (e : E) :
  outcome r = Some e -> r = Ret (state_of r d, e).
Proof. destruct r as [[c e']| |]; simpl; intros [=]; by subst. Qed.

Lemma Some_by_parts (o : option Consistent) (d : Consistent) :
  match o with Some _ => true | None => false end = true ->
  o = Some (added o d).
Proof. by destruct o. Qed.

(** [math.Ceil] on a few values: 0.5, 1.0, 1.1, and -0.5 (negative zero). *)
Example f64_ceil_examples :
  f64_ceil f64_half = f64_one /\ f64_ceil f64_one = f64_one /\
  f64_ceil f64_1_1 = float64_of_Z 2 /\
  f64_ceil (SFopp f64_half) = S754_zero true /\
  f64_ceil S754_nan = S754_nan.
Proof. repeat split. Qed.

(** The three cases of [TestConsistent_MaximumLoad] (load parameter 1):
    2 bins and 4 partitions, 4 bins and 2 partitions, 12 bins and 4
    partitions. *)
Example MaximumLoad_test_cases :
  let c (p : Z) (names : list string) :=
    fold_left add (NewBin <$> names)
      (empty_consistent
         {| Hasher_ := fnv64; Partition := p; ReplicationFactor := 10;
            LoadBalancingParameter := f64_one |}) in
  MaximumLoad (c 4 ["a"; "b"]%string) = float64_of_Z 2 /\
  MaximumLoad (c 2 ["a"; "b"; "c"; "d"]%string) = float64_of_Z 1 /\
  MaximumLoad (c 4 ["a"; "b"; "c"; "d"; "e"; "f"; "g"; "h"; "i"; "j"; "k"; "l"]%string)
    = float64_of_Z 1.
Proof. repeat split; vm_compute; reflexivity. Qed.

(** The scenario of the test-suite: four bins share the 23 partitions,
    none holds more than the ceiling of 7. *)
Example test_scenario :
  MaximumLoad st_test = float64_of_Z 7 /\
  outcome (distributePartitions st_test) = Some None /\
  (fun kl => (kl.1, length kl.2)) <$> map_to_list (loads st_test_distributed)
    = [("node3"%string, 3%nat); ("node1"%string, 7%nat);
       ("node2"%string, 6%nat); ("node0"%string, 7%nat)].
Proof. repeat split; vm_compute; reflexivity. Qed.

(** ** float64 arithmetic on small integers *)

Lemma shl_S p k : shl p (S k) = xO (shl p k).
Proof. reflexivity. Qed.

Lemma shl_add p j k : shl (shl p j) k = shl p (k + j).
Proof. unfold shl. by rewrite Nat.iter_add. Qed.

Lemma shl_Z p k : Z.pos (shl p k) = Z.pos p * 2 ^ Z.of_nat k.
Proof.
  induction k as [|k IH].
  - simpl. lia.
  - rewrite shl_S, Pos2Z.inj_xO, IH, Nat2Z.inj_succ, Z.pow_succ_r by lia. lia.
Qed.

Lemma Pos_iter_xO p d : Pos.iter xO p d = shl p (Pos.to_nat d).
Proof. apply Pos2Nat.inj_iter. Qed.

Lemma digits_shl p k :
  Z.pos (digits2_pos (shl p k)) = Z.pos (digits2_pos p) + Z.of_nat k.
Proof.
  induction k as [|k IH]; [simpl; lia|].
  rewrite shl_S. simpl digits2_pos. rewrite Pos2Z.inj_succ, IH. lia.
Qed.

Lemma iter_pos_nat {A} (f : A -> A) n x :
  SpecFloat.iter_pos f n x = Nat.iter (Pos.to_nat n) f x.
Proof.
  revert x. induction n as [n IH|n IH|]; intros x.
  - change (SpecFloat.iter_pos f n~1 x) with (SpecFloat.iter_pos f n (SpecFloat.iter_pos f n (f x))).
    rewrite !IH, Pos2Nat.inj_xI.
    replace (S (2 * Pos.to_nat n)) with (Pos.to_nat n + (Pos.to_nat n + 1))%nat by lia.
    rewrite !Nat.iter_add. reflexivity.
  - change (SpecFloat.iter_pos f n~0 x) with (SpecFloat.iter_pos f n (SpecFloat.iter_pos f n x)).
    rewrite !IH, Pos2Nat.inj_xO.
    replace (2 * Pos.to_nat n)%nat with (Pos.to_nat n + Pos.to_nat n)%nat by lia.
    by rewrite Nat.iter_add.
  - reflexivity.
Qed.

Lemma shr_1_shl q k :
  Nat.iter k shr_1 (Build_shr_record (Z.pos (shl q k)) false false)
  = Build_shr_record (Z.pos q) false false.
Proof.
  induction k as [|k IH]; [reflexivity|].
  rewrite Nat.iter_succ_r, shl_S. simpl shr_1. exact IH.
Qed.

Lemma fexp64 x : -1074 <= x - 53 -> fexp prec64 emax64 x = x - 53.
Proof. unfold fexp, emin, prec64, emax64. lia. Qed.

Lemma shr_exact q k e :
  shr (shr_record_of_loc (Z.pos (shl q k)) loc_Exact) e (Z.of_nat k)
  = (Build_shr_record (Z.pos q) false false, e + Z.of_nat k).
Proof.
  destruct k as [|k].
  - simpl. f_equal. lia.
  - unfold shr. change (Z.of_nat (S k)) with (Z.pos (Pos.of_succ_nat k)).
    cbv iota beta. rewrite iter_pos_nat, SuccNat2Pos.id_succ.
    unfold shr_record_of_loc. by rewrite shr_1_shl.
Qed.

(** A mantissa of 53 significant bits followed by [k] zero bits is
    normalised by dropping the zero bits: nothing is rounded. *)
Lemma binary_round_aux_exact q k e :
  Z.pos (digits2_pos q) = 53 ->
  -1074 <= e + Z.of_nat k <= 971 ->
  binary_round_aux prec64 emax64 false (Z.pos (shl q k)) e loc_Exact
  = S754_finite false q (e + Z.of_nat k).
Proof.
  intros Hq He. unfold binary_round_aux, shr_fexp.
  unfold Zdigits2. rewrite digits_shl, Hq.
  rewrite fexp64 by lia.
  replace (53 + Z.of_nat k + e - 53 - e) with (Z.of_nat k) by lia.
  rewrite shr_exact. cbv beta iota zeta.
  unfold shr_m, loc_of_shr_record, round_nearest_even.
  rewrite Hq, fexp64 by lia.
  replace (53 + (e + Z.of_nat k) - 53 - (e + Z.of_nat k)) with 0 by lia.
  simpl shr. cbv beta iota zeta.
  unfold prec64, emax64. destruct (Z.leb_spec (e + Z.of_nat k) (1024 - 53)); [done|lia].
Qed.

Lemma binary_round_exact q k e :
  Z.pos (digits2_pos q) = 53 ->
  -1074 <= e + Z.of_nat k <= 971 ->
  binary_round prec64 emax64 false (shl q k) e
  = S754_finite false q (e + Z.of_nat k).
Proof.
  intros Hq He. unfold binary_round, shl_align.
  rewrite digits_shl, Hq, fexp64 by lia.
  replace (53 + Z.of_nat k + e - 53 - e) with (Z.of_nat k) by lia.
  destruct k as [|k]; simpl Z.of_nat; cbv beta iota zeta;
    by apply binary_round_aux_exact.
Qed.

(** A mantissa of at most 53 significant bits is normalised by padding it
    with zero bits. *)
Lemma binary_round_small p e :
  Z.pos (digits2_pos p) <= 53 ->
  -1074 <= e + Z.pos (digits2_pos p) - 53 <= 971 ->
  binary_round prec64 emax64 false p e
  = S754_finite false (shl p (Z.to_nat (53 - Z.pos (digits2_pos p))))
      (e + Z.pos (digits2_pos p) - 53).
Proof.
  intros Hd He. unfold binary_round, shl_align.
  rewrite fexp64 by lia.
  set (d := Z.pos (digits2_pos p)) in *.
  destruct (d + e - 53 - e) as [|g|g] eqn:Hg.
  - replace (Z.to_nat (53 - d)) with 0%nat by lia.
    pose proof (binary_round_aux_exact p 0 e) as H.
    change (shl p 0) with p in *. rewrite H by (fold d; simpl Z.of_nat; lia).
    f_equal. simpl Z.of_nat. lia.
  - lia.
  - rewrite Pos_iter_xO.
    replace (Z.to_nat (53 - d)) with (Pos.to_nat g) by lia.
    pose proof (binary_round_aux_exact (shl p (Pos.to_nat g)) 0 (d + e - 53)) as H.
    change (shl (shl p (Pos.to_nat g)) 0) with (shl p (Pos.to_nat g)) in H.
    rewrite H.
    + f_equal. simpl Z.of_nat. lia.
    + rewrite digits_shl. fold d. lia.
    + simpl Z.of_nat. lia.
Qed.

Lemma digits2_pos_bounds p :
  2 ^ (Z.pos (digits2_pos p) - 1) <= Z.pos p < 2 ^ Z.pos (digits2_pos p).
Proof.
  induction p as [p IH|p IH|]; simpl digits2_pos.
  - rewrite Pos2Z.inj_succ, (Pos2Z.inj_xI p).
    replace (Z.succ (Z.pos (digits2_pos p)) - 1)
      with (Z.succ (Z.pos (digits2_pos p) - 1)) by lia.
    rewrite !Z.pow_succ_r by lia.
    revert IH. generalize (2 ^ (Z.pos (digits2_pos p) - 1)).
    generalize (2 ^ Z.pos (digits2_pos p)). lia.
  - rewrite Pos2Z.inj_succ, (Pos2Z.inj_xO p).
    replace (Z.succ (Z.pos (digits2_pos p)) - 1)
      with (Z.succ (Z.pos (digits2_pos p) - 1)) by lia.
    rewrite !Z.pow_succ_r by lia.
    revert IH. generalize (2 ^ (Z.pos (digits2_pos p) - 1)).
    generalize (2 ^ Z.pos (digits2_pos p)). lia.
  - simpl. lia.
Qed.

Lemma digits2_pos_le_53 p : Z.pos p < 2 ^ 53 -> Z.pos (digits2_pos p) <= 53.
Proof.
  intros Hp. pose proof (digits2_pos_bounds p) as [Hlo _].
  destruct (Z.le_gt_cases (Z.pos (digits2_pos p)) 53) as [|Hgt]; [done|].
  assert (2 ^ 53 <= 2 ^ (Z.pos (digits2_pos p) - 1))
    by (apply Z.pow_le_mono_r; lia).
  lia.
Qed.

(** [float64(n)] for a positive [n] below [2^53] is exact: the binary
    digits of [n], padded to 53 bits. *)
Lemma float64_of_Z_pos p :
  Z.pos p < 2 ^ 53 ->
  float64_of_Z (Z.pos p)
  = S754_finite false (shl p (Z.to_nat (53 - Z.pos (digits2_pos p))))
      (Z.pos (digits2_pos p) - 53).
Proof.
  intros Hp. apply digits2_pos_le_53 in Hp.
  unfold float64_of_Z, binary_normalize.
  rewrite binary_round_small by lia. f_equal.
Qed.

(** Below [2^53], adding [1.0] to [float64(n)] gives [float64(n+1)]. *)
Lemma float64_succ n :
  0 <= n -> n + 1 < 2 ^ 53 ->
  f64_add (float64_of_Z n) f64_one = float64_of_Z (n + 1).
Proof.
  intros Hn Hb. destruct n as [|p|p]; [reflexivity| |lia].
  assert (Z.pos (p + 1) < 2 ^ 53) as Hb' by lia.
  pose proof (digits2_pos_le_53 p ltac:(lia)) as Hd.
  pose proof (digits2_pos_le_53 (p + 1) Hb') as Hd'.
  change (Z.pos p + 1) with (Z.pos (p + 1)).
  rewrite float64_of_Z_pos by lia. rewrite (float64_of_Z_pos (p + 1)) by done.
  change f64_one with (S754_finite false (shl 1 52) (-52)).
  set (d := Z.pos (digits2_pos p)) in *.
  set (d' := Z.pos (digits2_pos (p + 1))) in *.
  unfold f64_add, SFadd.
  replace (Z.min (d - 53) (-52)) with (-52) by lia.
  assert (fst (shl_align (shl p (Z.to_nat (53 - d))) (d - 53) (-52)) = shl p 52) as ->.
  { unfold shl_align. destruct (-52 - (d - 53)) as [|g|g] eqn:Hg; cbv beta iota delta [fst].
    - f_equal. lia.
    - lia.
    - rewrite Pos_iter_xO, shl_add. f_equal. lia. }
  change (fst (shl_align (shl 1 52) (-52) (-52))) with (shl 1 52).
  unfold cond_Zopp.
  assert (Z.pos (shl p 52) + Z.pos (shl 1 52)
          = Z.pos (shl (shl (p + 1) (Z.to_nat (53 - d'))) (Z.to_nat (d' - 1)))) as ->.
  { rewrite shl_add, !shl_Z.
    replace (Z.of_nat (Z.to_nat (d' - 1) + Z.to_nat (53 - d'))) with 52 by lia.
    change (Z.of_nat 52) with 52. lia. }
  unfold binary_normalize. rewrite binary_round_exact.
  - f_equal. lia.
  - rewrite digits_shl. fold d'. lia.
  - lia.
Qed.

Lemma float64_of_Z_positive n :
  0 < n < 2 ^ 53 -> exists m e, float64_of_Z n = S754_finite false m e.
Proof.
  intros Hn. destruct n as [|p|p]; try lia.
  rewrite float64_of_Z_pos by lia. eauto.
Qed.

(** A bound that some positive count meets is met by the count zero. *)
Lemma f64_leb_zero n maxLoad :
  0 < n < 2 ^ 53 ->
  f64_leb (float64_of_Z n) maxLoad = true ->
  f64_leb (float64_of_Z 0) maxLoad = true.
Proof.
  intros Hn. destruct (float64_of_Z_positive n Hn) as (m & e & ->).
  change (float64_of_Z 0) with (S754_zero false).
  unfold f64_leb, SFleb.
  destruct maxLoad as [s|s| |s m' e']; simpl; try done; by destruct s.
Qed.

(** Below [2^53] the comparison of two counts as [float64] values is the
    comparison of the counts. *)
Lemma float64_of_Z_le a b :
  0 <= a < 2 ^ 53 -> 0 <= b < 2 ^ 53 ->
  f64_leb (float64_of_Z a) (float64_of_Z b) = true -> a <= b.
Proof.
  intros Ha Hb.
  destruct a as [|p|p]; [lia| |lia].
  destruct b as [|q|q]; [| |lia].
  { rewrite float64_of_Z_pos by lia. discriminate. }
  rewrite !float64_of_Z_pos by lia.
  pose proof (digits2_pos_bounds p) as [Hp1 Hp2].
  pose proof (digits2_pos_bounds q) as [Hq1 Hq2].
  pose proof (digits2_pos_le_53 p ltac:(lia)) as Hd.
  unfold f64_leb, SFleb, SFcompare.
  destruct (Z.compare_spec (Z.pos (digits2_pos p) - 53) (Z.pos (digits2_pos q) - 53))
    as [E|E|E]; [|intros _|discriminate].
  - assert (digits2_pos p = digits2_pos q) as -> by lia.
    change (Pos.compare_cont Eq ?x ?y) with (x ?= y)%positive.
    set (k := Z.to_nat (53 - Z.pos (digits2_pos q))).
    destruct (Pos.compare_spec (shl p k) (shl q k)) as [E'|E'|E'];
      try discriminate; intros _.
    + assert (Z.pos (shl p k) = Z.pos (shl q k)) as E2 by congruence.
      rewrite !shl_Z in E2. nia.
    + apply Pos2Z.pos_lt_pos in E'. rewrite !shl_Z in E'. nia.
  - assert (2 ^ Z.pos (digits2_pos p) <= 2 ^ (Z.pos (digits2_pos q) - 1))
      by (apply Z.pow_le_mono_r; lia).
    lia.
Qed.

(** ** The load table as a multiset of partition ids *)

Lemma concat_Permutation {A} (l1 l2 : list (list A)) :
  l1 ≡ₚ l2 -> concat l1 ≡ₚ concat l2.
Proof.
  induction 1 as [|x l1 l2 _ IH|x y l|l1 l2 l3 _ IH1 _ IH2]; simpl.
  - done.
  - by rewrite IH.
  - rewrite !app_assoc. by rewrite (Permutation_app_comm y x).
  - by rewrite IH1.
Qed.

Lemma all_loads_insert_fresh ls n l :
  ls !! n = None -> all_loads (<[n := l]> ls) ≡ₚ l ++ all_loads ls.
Proof.
  intros H. unfold all_loads.
  rewrite (concat_Permutation _ ((n, l) :: map_to_list ls).*2).
  - done.
  - apply fmap_Permutation. by apply map_to_list_insert.
Qed.

Lemma all_loads_lookup ls n l :
  ls !! n = Some l -> all_loads ls ≡ₚ l ++ all_loads (delete n ls).
Proof.
  intros H. unfold all_loads.
  rewrite (concat_Permutation _ ((n, l) :: map_to_list (delete n ls)).*2).
  - done.
  - apply fmap_Permutation. symmetry. by apply map_to_list_delete.
Qed.

(** Appending one id to the slice of a bin adds that id once. *)
Lemma all_loads_append ls n p :
  all_loads (<[n := load_of ls n ++ [p]]> ls) ≡ₚ p :: all_loads ls.
Proof.
  unfold load_of. destruct (ls !! n) as [l|] eqn:E; simpl.
  - rewrite <- insert_delete_eq.
    rewrite all_loads_insert_fresh by apply lookup_delete_eq.
    rewrite (all_loads_lookup ls n l E).
    rewrite <- app_assoc. simpl. symmetry. apply Permutation_middle.
  - by rewrite all_loads_insert_fresh.
Qed.

Lemma all_loads_length ls n l :
  ls !! n = Some l -> (length l <= length (all_loads ls))%nat.
Proof.
  intros H. rewrite (all_loads_lookup ls n l H), length_app. lia.
Qed.

Lemma load_of_length ls n :
  (length (load_of ls n) <= length (all_loads ls))%nat.
Proof.
  unfold load_of. destruct (ls !! n) as [l|] eqn:E; simpl; [|lia].
  by eapply all_loads_length.
Qed.

Lemma initial_loads_lookup bs n l : initial_loads bs !! n = Some l -> l = [].
Proof.
  intros H. apply elem_of_list_to_map_2 in H.
  apply list_elem_of_fmap in H as ([k b] & [= _ ->] & _). done.
Qed.

(** Every registered bin has an entry in the fresh load table. *)
Lemma initial_loads_tracked bs k b :
  bs !! k = Some b -> initial_loads bs !! Bin_String b = Some [].
Proof.
  intros H. destruct (initial_loads bs !! Bin_String b) as [l|] eqn:E.
  - by apply initial_loads_lookup in E as ->.
  - apply not_elem_of_list_to_map_2 in E. exfalso. apply E.
    rewrite <- list_fmap_compose. apply list_elem_of_fmap.
    exists (k, b). split; [done|]. by apply elem_of_map_to_list.
Qed.

Lemma all_loads_initial bs : all_loads (initial_loads bs) = [].
Proof.
  unfold all_loads.
  assert (Forall (fun kl => kl.2 = []) (map_to_list (initial_loads bs))) as H.
  { apply Forall_forall. intros [n l] Hin. simpl.
    apply elem_of_map_to_list in Hin. by apply initial_loads_lookup in Hin. }
  induction H as [|[n l] kls Hl _ IH]; [done|].
  rewrite fmap_cons. simpl in *. by rewrite Hl, IH.
Qed.

(** ** Invariants of the distribution pass *)

Section Distribution.
Variable c : Consistent.

(** A property of the pair of tables that holds at the start and is kept
    by every assignment that [distributeWithLoad] can make holds after a
    successful pass. *)
Lemma distribute_loop_invariant
    (P : list Z -> gmap Z Bin -> gmap string (list Z) -> Prop) :
  (forall done partID ps ls h bin,
      P done ps ls ->
      h ∈ sortedSet c -> ring c !! h = Some bin ->
      f64_leb (f64_add (float64_of_Z (Z.of_nat (length (load_of ls (Bin_String bin)))))
                       f64_one) (MaximumLoad c) = true ->
      P (done ++ [partID]) (<[partID := bin]> ps)
        (<[Bin_String bin := load_of ls (Bin_String bin) ++ [partID]]> ls)) ->
  forall ids done ps ls ps' ls',
    P done ps ls ->
    distribute_loop c ids ps ls = Ret (ps', ls', None) ->
    P (done ++ (int_of_uint64 <$> ids)) ps' ls'.
Proof.
  intros Hstep. induction ids as [|p ids IH]; intros done ps ls ps' ls' HP.
  - simpl. intros [= <- <-]. by rewrite app_nil_r.
  - rewrite distribute_loop_cons.
    destruct (distributeWithLoad _ _ _ _ _) as [[[ps1 ls1] [e1|]]| |] eqn:Hd;
      try discriminate.
    intros Hrest. unfold distributeWithLoad in Hd.
    apply distributeWithLoad_loop_Ret in Hd
      as [(? & _)|(_ & h & bin & Hh & Hb & Hle & -> & ->)]; [discriminate|].
    rewrite fmap_cons, cons_middle, app_assoc.
    eapply IH; [|exact Hrest]. by eapply Hstep.
Qed.

Lemma covers_initial : covers [] ∅ (initial_loads (bins c)).
Proof.
  split; [|split].
  - intros p. rewrite lookup_empty, elem_of_nil. split; [by intros [? ?]|done].
  - intros p b. by rewrite lookup_empty.
  - by rewrite all_loads_initial.
Qed.

Lemma covers_step done partID ps ls bin :
  covers done ps ls ->
  covers (done ++ [partID]) (<[partID := bin]> ps)
    (<[Bin_String bin := load_of ls (Bin_String bin) ++ [partID]]> ls).
Proof.
  intros (Hdom & Hagree & Hperm). split; [|split].
  - intros p. rewrite elem_of_app, list_elem_of_singleton, <- Hdom.
    destruct (decide (partID = p)) as [->|Hne].
    + rewrite lookup_insert_eq. split; eauto.
    + rewrite lookup_insert_ne by done. split; [eauto|]. intros [?|?]; congruence.
  - intros p b Hp. unfold load_of at 1.
    destruct (decide (partID = p)) as [->|Hne].
    + rewrite lookup_insert_eq in Hp. injection Hp as <-.
      rewrite lookup_insert_eq. simpl. apply elem_of_app. right.
      by apply list_elem_of_singleton.
    + rewrite lookup_insert_ne in Hp by done.
      apply Hagree in Hp.
      destruct (decide (Bin_String bin = Bin_String b)) as [E|E].
      * rewrite E, lookup_insert_eq. simpl. apply elem_of_app. by left.
      * by rewrite lookup_insert_ne.
  - rewrite all_loads_append, Hperm. apply Permutation_cons_append.
Qed.

Lemma distribute_loop_covers ids ps ls :
  distribute_loop c ids ∅ (initial_loads (bins c)) = Ret (ps, ls, None) ->
  covers (int_of_uint64 <$> ids) ps ls.
Proof.
  intros H.
  apply (distribute_loop_invariant covers) with (done := []) in H;
    [done| |apply covers_initial].
  intros. by apply covers_step.
Qed.
End Distribution.

Lemma int_of_uint64_upto n :
  n <= 2 ^ 63 -> int_of_uint64 <$> upto n = upto n.
Proof.
  intros Hn. unfold upto. rewrite <- (list_fmap_id (seqZ 0 n)) at 2.
  apply list_fmap_ext. intros i x Hx.
  apply list_elem_of_lookup_2, elem_of_seqZ in Hx.
  unfold int_of_uint64. destruct (Z.ltb_spec x (2 ^ 63)); simpl; lia.
Qed.

Lemma pass_invariant_initial c :
  pass_invariant c [] ∅ (initial_loads (bins c)).
Proof.
  split; [apply covers_initial|]. split; [done|].
  intros _. split; [|done].
  intros n l H. left. by eapply initial_loads_lookup.
Qed.

Lemma pass_invariant_step c done partID ps ls bin :
  pass_invariant c done ps ls ->
  f64_leb (f64_add (float64_of_Z (Z.of_nat (length (load_of ls (Bin_String bin)))))
                   f64_one) (MaximumLoad c) = true ->
  pass_invariant c (done ++ [partID]) (<[partID := bin]> ps)
    (<[Bin_String bin := load_of ls (Bin_String bin) ++ [partID]]> ls).
Proof.
  intros (Hcov & Hkeys & Hbound) Hle.
  split; [by apply covers_step|]. split.
  { intros n Hn. apply Hkeys in Hn.
    destruct (decide (Bin_String bin = n)) as [E|Hne].
    - subst n. rewrite lookup_insert_eq. eauto.
    - by rewrite lookup_insert_ne. }
  rewrite length_app. simpl length. intros Hlen.
  pose proof (load_of_length ls (Bin_String bin)) as Hl.
  destruct Hcov as (_ & _ & Hperm). rewrite Hperm in Hl.
  rewrite float64_succ in Hle by lia.
  destruct Hbound as [Hall _]; [lia|]. split.
  - intros n l. destruct (decide (Bin_String bin = n)) as [E|Hne].
    + subst n. rewrite lookup_insert_eq. intros [= <-]. right.
      rewrite length_app. simpl length.
      replace (Z.of_nat (length (load_of ls (Bin_String bin)) + 1))
        with (Z.of_nat (length (load_of ls (Bin_String bin))) + 1) by lia.
      exact Hle.
    + rewrite lookup_insert_ne by done. apply Hall.
  - intros _. eapply f64_leb_zero; [|exact Hle]. lia.
Qed.

Lemma distribute_loop_pass_invariant c ids ps ls :
  distribute_loop c ids ∅ (initial_loads (bins c)) = Ret (ps, ls, None) ->
  pass_invariant c (int_of_uint64 <$> ids) ps ls.
Proof.
  intros H.
  apply (distribute_loop_invariant c (pass_invariant c)) with (done := []) in H;
    [done| |apply pass_invariant_initial].
  intros. by apply pass_invariant_step.
Qed.

(** ** C1: the load bound *)

(** The ceiling of the specification on its own scenarios and on 116
    partitions over seven bins with the parameter 1.75, where
    [(116 / 7) * (7 / 4) = 29] exactly. *)
Example spec_ceiling_examples :
  spec_ceiling 23 4 f64_1_1 = Some 7 /\ spec_ceiling 23 3 f64_1_1 = Some 9 /\
  spec_ceiling 4 2 f64_one = Some 2 /\ spec_ceiling 116 7 f64_1_75 = Some 29.
Proof. repeat split. Qed.

(** In binary64 the quotient [116 / 7] is rounded, and its product with
    [1.75] is rounded to the value next above [29.0]: [math.Ceil] gives
    30. *)
Example rounding_of_the_ceiling :
  f64_div (float64_of_Z 116) (float64_of_Z 7)
    = S754_finite false 4664442471205157 (-48) /\
  f64_mul (f64_div (float64_of_Z 116) (float64_of_Z 7)) f64_1_75
    = S754_finite false 8162774324609025 (-48) /\
  float64_of_Z 29 = S754_finite false 8162774324609024 (-48) /\
  f64_ceil (f64_mul (f64_div (float64_of_Z 116) (float64_of_Z 7)) f64_1_75)
    = float64_of_Z 30.
Proof. repeat split; vm_compute; reflexivity. Qed.

(** C1, as stated, fails: with 116 partitions, three replicas, the load
    parameter 1.75 and the FNV hasher, [New] with the seven bins [node0]
    to [node6] succeeds.  The exact ceiling of [(116 / 7) * 1.75] is 29,
    [MaximumLoad] is 30, and the tracked bins [node4], [node5] and [node6]
    hold 30 partitions each. *)
Lemma load_exceeds_exact_ceiling :
  New cfg_rounding (Some [node0; node1; node2; node3; node4; node5; node6])
    = Ret (inl st_rounding_distributed) /\
  distributePartitions st_rounding = Ret (st_rounding_distributed, None) /\
  spec_ceiling (partition st_rounding) (Z.of_nat (size (bins st_rounding)))
    (loadBalancingParameter st_rounding) = Some 29 /\
  MaximumLoad st_rounding_distributed = float64_of_Z 30 /\
  bins st_rounding_distributed !! "node5"%string = Some node5 /\
  length <$> loads st_rounding_distributed !! "node5"%string = Some 30%nat /\
  (fun kl => (kl.1, length kl.2)) <$> map_to_list (loads st_rounding_distributed)
    = [("node3"%string, 3%nat); ("node5"%string, 30%nat);
       ("node1"%string, 10%nat); ("node6"%string, 30%nat);
       ("node2"%string, 13%nat); ("node4"%string, 30%nat);
       ("node0"%string, 0%nat)].
Proof.
  assert (distributePartitions st_rounding = Ret (st_rounding_distributed, None))
    as H by (apply Ret_by_parts; vm_compute; reflexivity).
  split; [apply (New_of_pass _ _ st_rounding); [reflexivity|exact H]|].
  split; [exact H|].
  repeat split; vm_compute; reflexivity.
Qed.

(** Without partitions the pass succeeds and every slice is empty, but
    with an infinite load parameter the ceiling is [0 * +Inf], not a
    number, and no [float64] comparison with it holds: the comparison
    below is stated for a positive partition count. *)
Example no_partition_ceiling :
  distributePartitions st_no_partition = Ret (st_no_partition_distributed, None) /\
  MaximumLoad st_no_partition_distributed = S754_nan /\
  loads st_no_partition_distributed = {[ "node0"%string := [] ]} /\
  f64_leb (float64_of_Z 0) (MaximumLoad st_no_partition_distributed) = false.
Proof.
  split; [apply Ret_by_parts; vm_compute; reflexivity|].
  repeat split; vm_compute; reflexivity.
Qed.

(** C1, amended.  The ceiling of a pass is the [float64] value that
    [MaximumLoad] computes from the partition count, the number of bins of
    the pass and the load parameter: the quotient and the product are each
    rounded to binary64 before [math.Ceil] is taken.  After a successful
    distribution pass on a structure whose partition count is below
    [2^53], every tracked bin has a slice in the load table, and every
    slice of the load table is bounded by that ceiling: if the partition
    count is positive, the number of partitions of the slice, as a
    [float64], is at most the ceiling; and whenever the ceiling is the
    [float64] of an integer [M] with [0 <= M < 2^53], the slice holds at
    most [M] partitions.  [MaximumLoad] on the structure after the pass
    returns the same ceiling. *)
Theorem distribution_respects_maximum_load c c' :
  distributePartitions c = Ret (c', None) ->
  partition c < 2 ^ 53 ->
  let ceiling :=
    f64_ceil (f64_mul (f64_div (float64_of_Z (partition c))
                               (float64_of_Z (Z.of_nat (size (bins c)))))
                      (loadBalancingParameter c)) in
  let bounded (l : list Z) :=
    (0 < partition c ->
     f64_leb (float64_of_Z (Z.of_nat (length l))) ceiling = true) /\
    (forall M, 0 <= M < 2 ^ 53 -> ceiling = float64_of_Z M ->
       Z.of_nat (length l) <= M) in
  (forall k b, bins c' !! k = Some b ->
     exists l, loads c' !! Bin_String b = Some l /\ bounded l) /\
  (forall n l, loads c' !! n = Some l -> bounded l) /\
  MaximumLoad c' = ceiling.
Proof.
  intros H HP ceiling bounded.
  apply distributePartitions_Ret in H as [(? & _)|(_ & ps & ls & H & ->)];
    [discriminate|].
  apply distribute_loop_pass_invariant in H as ((_ & _ & Hperm) & Hkeys & Hbound).
  assert (length (int_of_uint64 <$> upto (partition c)) = Z.to_nat (partition c))
    as Hlen by (unfold upto; by rewrite length_fmap, length_seqZ).
  destruct Hbound as [Hall Hzero]; [lia|].
  change (MaximumLoad c) with ceiling in Hall, Hzero.
  assert (forall n l, ls !! n = Some l -> bounded l) as Hle.
  { intros n l Hl.
    assert (Z.of_nat (length l) <= Z.of_nat (length (all_loads ls))) as Hsum
      by (pose proof (all_loads_length ls n l Hl); lia).
    rewrite Hperm, Hlen in Hsum.
    assert (0 < partition c ->
            f64_leb (float64_of_Z (Z.of_nat (length l))) ceiling = true) as Hf.
    { intros HP0. destruct (Hall n l Hl) as [->|?]; [|done].
      apply Hzero. intros E. rewrite E in Hlen. simpl in Hlen. lia. }
    split; [exact Hf|].
    intros M HM EM.
    destruct (Z.le_gt_cases (partition c) 0) as [H0|H0]; [lia|].
    apply float64_of_Z_le; [lia|done|]. rewrite <- EM. by apply Hf. }
  split; [|split; [exact Hle|reflexivity]].
  intros k b Hb. simpl in Hb.
  destruct (Hkeys (Bin_String b)) as [l Hl].
  { rewrite (initial_loads_tracked _ _ _ Hb). eauto. }
  exists l. split; [exact Hl|]. by eapply Hle.
Qed.

(** On the scenario of the test-suite the ceiling is 7, and no bin holds
    more than seven of the 23 partitions. *)
Lemma distribution_respects_maximum_load_witness :
  MaximumLoad st_test_distributed = float64_of_Z 7 /\
  (forall k b, bins st_test_distributed !! k = Some b ->
     exists l, loads st_test_distributed !! Bin_String b = Some l /\
       Z.of_nat (length l) <= 7) /\
  (forall n l, loads st_test_distributed !! n = Some l ->
     f64_leb (float64_of_Z (Z.of_nat (length l))) (float64_of_Z 7) = true /\
     Z.of_nat (length l) <= 7).
Proof.
  assert (f64_ceil (f64_mul (f64_div (float64_of_Z (partition st_test))
                               (float64_of_Z (Z.of_nat (size (bins st_test)))))
                      (loadBalancingParameter st_test)) = float64_of_Z 7) as E
    by (vm_compute; reflexivity).
  destruct (distribution_respects_maximum_load st_test st_test_distributed)
    as (Hbins & Hall & Hmax).
  - apply Ret_by_parts. vm_compute. reflexivity.
  - vm_compute. reflexivity.
  - rewrite E in Hbins, Hall, Hmax. split; [exact Hmax|]. split.
    + intros k b Hb. destruct (Hbins k b Hb) as (l & Hl & _ & HM).
      exists l. split; [exact Hl|]. apply HM; [lia|reflexivity].
    + intros n l Hl. destruct (Hall n l Hl) as [Hf HM]. split.
      * apply Hf. vm_compute. reflexivity.
      * apply HM; [lia|reflexivity].
Defined.

(** ** C2: total coverage *)



(** ** C3: the walk stops one position short of a full traversal *)

(** C3.  Two bins with one replica each, two partitions and a load
    ceiling of one.  Partition 0 goes to [node1], the bin at index 0.
    The walk for partition 1 starts at index 0 as well, finds [node1]
    full, and reports [ErrInsufficientPartitionCapacity] before looking at
    index 1, where [node0] has load 0, below the ceiling.  So does the
    constructor; and with a single ring position ([cfg_single]) the
    error is reported without any probe. *)
Theorem capacity_error_with_free_bin :
  MaximumLoad st_pair = f64_one /\
  start_index st_pair (Sum64 fnv64 (PutUint64 0)) = 0 /\
  start_index st_pair (Sum64 fnv64 (PutUint64 1)) = 0 /\
  distributeWithLoad st_pair 0 0 ∅ (initial_loads (bins st_pair))
    = Ret (pair_partitions_1, pair_loads_1, None) /\
  distributeWithLoad st_pair 1 0 pair_partitions_1 pair_loads_1
    = Ret (pair_partitions_1, pair_loads_1, Some ErrInsufficientPartitionCapacity) /\
  (exists h, sortedSet st_pair !! 1%nat = Some h /\
     ring st_pair !! h = Some node0 /\
     f64_ltb (float64_of_Z (Z.of_nat (length (load_of pair_loads_1 (Bin_String node0)))))
             (MaximumLoad st_pair) = true) /\
  New cfg_pair (Some [node0; node1]) = Ret (inr ErrInsufficientPartitionCapacity) /\
  New cfg_single (Some [node0]) = Ret (inr ErrInsufficientPartitionCapacity).
Proof.
  do 5 (split; [vm_compute; reflexivity|]).
  split; [|split; vm_compute; reflexivity].
  exists (Sum64 fnv64 (add_label 0 node0)).
  split; [vm_compute; reflexivity|].
  split; vm_compute; reflexivity.
Qed.

(** ** C4: what a failed [Add] leaves behind *)

(** C4, as stated, fails: [Add node0] on the empty structure of
    [cfg_tight] (two partitions, load ceiling one) returns
    [ErrInsufficientPartitionCapacity], yet the bin is registered and its
    three positions are on the ring. *)
Lemma Add_failure_keeps_new_bin :
  Add st_tight_0 node0 = Ret (st_tight_1, Some ErrInsufficientPartitionCapacity) /\
  bins st_tight_0 = ∅ /\ bins st_tight_1 = {[ "node0"%string := node0 ]} /\
  length (sortedSet st_tight_0) = 0%nat /\ length (sortedSet st_tight_1) = 3%nat /\
  size (ring st_tight_0) = 0%nat /\ size (ring st_tight_1) = 3%nat.
Proof.
  split; [apply Ret_by_parts; vm_compute; reflexivity|].
  repeat split; vm_compute; reflexivity.
Qed.

(** C4, amended.  When [Add bin] returns an error, the partition table,
    the load table and the ball registry are those of before the call.
    If the error is [ErrBinAlreadyExist] the whole structure is unchanged;
    otherwise the error is [ErrInsufficientPartitionCapacity] and the
    structure is the one [add] produced: the bin is registered and its
    positions are on the ring and in the sorted set. *)
Theorem Add_failure_state c bin c' e :
  Add c bin = Ret (c', Some e) ->
  partitions c' = partitions c /\ loads c' = loads c /\ balls c' = balls c /\
  ((e = ErrBinAlreadyExist /\ c' = c) \/
   (e = ErrInsufficientPartitionCapacity /\ c' = add c bin)).
Proof.
  intros H. apply Add_Ret in H as [([= <-] & -> & _)|(_ & H)].
  { repeat split; try done. by left. }
  apply distributePartitions_Ret in H as [([= <-] & ->)|(? & _)]; [|discriminate].
  destruct (add_frame c bin) as (_ & _ & _ & _ & Hl & Hb & Hp & _).
  repeat split; try done. by right.
Qed.

Lemma Add_failure_state_witness :
  partitions st_tight_1 = partitions st_tight_0 /\
  loads st_tight_1 = loads st_tight_0 /\ balls st_tight_1 = balls st_tight_0 /\
  ((ErrInsufficientPartitionCapacity = ErrBinAlreadyExist /\ st_tight_1 = st_tight_0) \/
   (ErrInsufficientPartitionCapacity = ErrInsufficientPartitionCapacity /\
    st_tight_1 = add st_tight_0 node0)).
Proof.
  apply (Add_failure_state st_tight_0 node0 st_tight_1).
  apply Ret_by_parts. vm_compute. reflexivity.
Defined.

(** ** C5: the labels of [Remove] are not the labels of [add] *)

(** C5.  With the FNV hasher and two replicas, [Add node0] on the empty
    structure puts the hashes of ["0node0"] and ["1node0"] on the ring.
    [Remove node0] hashes ["node00"] and ["node01"] instead: it
    unregisters the bin but deletes neither position, so the ring and the
    sorted set still hold both positions of [node0]. *)
Theorem Remove_leaves_positions_of_Add :
  outcome (Add st_small_0 node0) = Some None /\
  sortedSet st_small_1
    = [Sum64 fnv64 (add_label 0 node0); Sum64 fnv64 (add_label 1 node0)] /\
  ring st_small_1
    = <[Sum64 fnv64 (add_label 1 node0) := node0]>
        {[ Sum64 fnv64 (add_label 0 node0) := node0 ]} /\
  add_label 0 node0 = bytes_of_string "0node0" /\
  remove_label 0 node0 = bytes_of_string "node00" /\
  Remove st_small_1 node0 = Ret (st_small_removed, None) /\
  bins st_small_removed = ∅ /\
  sortedSet st_small_removed = sortedSet st_small_1 /\
  ring st_small_removed = ring st_small_1.
Proof.
  split; [vm_compute; reflexivity|].
  do 4 (split; [vm_compute; reflexivity|]).
  split; [apply Ret_by_parts; vm_compute; reflexivity|].
  do 2 (split; [vm_compute; reflexivity|]).
  vm_compute; reflexivity.
Qed.

(** ** C6: the constructor does not validate its configuration *)

(** C6.  The configurations of [TestNew] with a zero partition count, a
    negative replication factor and a zero load-balancing parameter are
    all accepted by [New]: it returns a structure and no error. *)
Theorem New_accepts_invalid_configurations :
  New cfg_zero_partition None = Ret (inl (empty_consistent cfg_zero_partition)) /\
  New cfg_negative_replication None
    = Ret (inl (empty_consistent cfg_negative_replication)) /\
  New cfg_zero_load_parameter None
    = Ret (inl (empty_consistent cfg_zero_load_parameter)).
Proof. repeat split. Qed.

(** ** C7: removing the last bin *)

(** C7, as stated, fails: after [Add node0] on the empty structure of
    [cfg_small], [node0] is the only bin; [Remove node0] returns nil and
    empties the partition table, but the load table still holds the
    entry of [node0] with partition 0. *)
Lemma Remove_last_bin_keeps_loads :
  bins st_small_1 = {[ "node0"%string := node0 ]} /\
  Remove st_small_1 node0 = Ret (st_small_removed, None) /\
  partitions st_small_removed = ∅ /\
  loads st_small_removed = {[ "node0"%string := [0] ]} /\
  loads st_small_removed <> ∅.
Proof.
  split; [vm_compute; reflexivity|].
  split; [apply Ret_by_parts; vm_compute; reflexivity|].
  split; [vm_compute; reflexivity|].
  assert (loads st_small_removed = {[ "node0"%string := [0] ]}) as E
    by (vm_compute; reflexivity).
  split; [exact E|]. rewrite E. apply insert_non_empty.
Qed.

(** C7, amended.  When [Remove] is called on the only tracked bin it
    returns nil, the bin registry and the partition table are empty
    afterwards, and the load table is the one of before the call. *)
Theorem Remove_last_bin c bin :
  is_Some (bins c !! Bin_String bin) -> size (bins c) = 1%nat ->
  exists c', Remove c bin = Ret (c', None) /\
    bins c' = ∅ /\ partitions c' = ∅ /\ loads c' = loads c.
Proof.
  intros Hb Hs.
  assert (delete (Bin_String bin) (bins c) = ∅) as E.
  { apply map_size_empty_iff. rewrite map_size_delete_Some by done. by rewrite Hs. }
  unfold Remove. destruct Hb as [b ->].
  destruct (fold_left _ _ _) as [r s].
  simpl. rewrite E, map_size_empty. simpl. eexists. split; [reflexivity|]. done.
Qed.

Lemma Remove_last_bin_witness :
  exists c', Remove st_small_1 node0 = Ret (c', None) /\
    bins c' = ∅ /\ partitions c' = ∅ /\ loads c' = loads st_small_1.
Proof.
  apply (Remove_last_bin st_small_1 node0).
  - exists node0. vm_compute. reflexivity.
  - vm_compute. reflexivity.
Defined.

(** ** C8: the order of the [Add] calls *)

Lemma add_fold (f : Z -> Z) (b : Bin) l r s :
  fold_left (fun '(r, s) i => let h := f i in (<[h := b]> r, s ++ [h])) l (r, s)
  = (ring_insert_all (f <$> l) b r, s ++ (f <$> l)).
Proof.
  revert r s. induction l as [|i l IH]; intros r s; simpl.
  - by rewrite app_nil_r.
  - rewrite IH. unfold ring_insert_all. simpl. by rewrite <- app_assoc.
Qed.

Lemma add_unfold c b :
  add c b =
  set_ring c
    (ring_insert_all (replica_hashes (hasher c) (replicationFactor c) b) b (ring c))
    (sort_ascending (sortedSet c ++ replica_hashes (hasher c) (replicationFactor c) b))
    (<[Bin_String b := b]> (bins c)).
Proof. unfold add. by rewrite add_fold. Qed.

Lemma ring_insert_all_lookup hs b r k :
  ring_insert_all hs b r !! k = if decide (k ∈ hs) then Some b else r !! k.
Proof.
  revert r. induction hs as [|h hs IH]; intros r; simpl.
  - destruct (decide (k ∈ [])) as [H|_]; [by apply elem_of_nil in H|done].
  - unfold ring_insert_all in *. simpl. rewrite IH.
    destruct (decide (k ∈ hs)) as [Hin|Hnin].
    + rewrite decide_True; [done|]. apply elem_of_cons. by right.
    + destruct (decide (k = h)) as [->|Hne].
      * rewrite lookup_insert_eq, decide_True; [done|]. apply elem_of_cons. by left.
      * rewrite lookup_insert_ne by done. rewrite decide_False; [done|].
        rewrite elem_of_cons. intros [?|?]; done.
Qed.

Lemma sort_ascending_unique l1 l2 :
  l1 ≡ₚ l2 -> sort_ascending l1 = sort_ascending l2.
Proof.
  intros H. unfold sort_ascending.
  apply (Sorted_unique Z.le); try apply Sorted_merge_sort; try apply _.
  by rewrite !merge_sort_Permutation.
Qed.

Lemma disjointb_spec l1 l2 x : disjointb l1 l2 = true -> x ∈ l1 -> x ∈ l2 -> False.
Proof.
  unfold disjointb. rewrite forallb_forall. intros H H1 H2.
  apply list_elem_of_In in H1. specialize (H x H1).
  apply negb_true_iff in H.
  assert (existsb (Z.eqb x) l2 = true) as E; [|congruence].
  apply existsb_exists. exists x. split; [by apply list_elem_of_In|apply Z.eqb_refl].
Qed.

(** Two bins with different names and no common position can be added in
    either order. *)
Lemma add_commute c a b :
  Bin_String a <> Bin_String b ->
  disjointb (replica_hashes (hasher c) (replicationFactor c) a)
            (replica_hashes (hasher c) (replicationFactor c) b) = true ->
  add (add c a) b = add (add c b) a.
Proof.
  intros Hn Hd. rewrite !add_unfold. simpl.
  set (ha := replica_hashes (hasher c) (replicationFactor c) a) in *.
  set (hb := replica_hashes (hasher c) (replicationFactor c) b) in *.
  unfold set_ring. simpl. f_equal.
  - apply insert_insert_ne. congruence.
  - apply map_eq. intros k. rewrite !ring_insert_all_lookup.
    destruct (decide (k ∈ hb)), (decide (k ∈ ha)); try done.
    exfalso. by eapply disjointb_spec.
  - apply sort_ascending_unique. unfold sort_ascending.
    rewrite !merge_sort_Permutation, <- !app_assoc.
    apply Permutation_app_head, Permutation_app_comm.
Qed.

Lemma add_hasher c b : hasher (add c b) = hasher c.
Proof. by destruct (add_frame c b) as (? & _). Qed.

Lemma add_replicationFactor c b : replicationFactor (add c b) = replicationFactor c.
Proof. by destruct (add_frame c b) as (_ & _ & ? & _). Qed.

Lemma collision_free_spec h rf names a b :
  collision_free h rf names = true -> a ∈ names -> b ∈ names -> a <> b ->
  disjointb (replica_hashes h rf (NewBin a)) (replica_hashes h rf (NewBin b)) = true.
Proof.
  unfold collision_free. rewrite forallb_forall. intros H Ha Hb Hne.
  apply list_elem_of_In in Ha, Hb. specialize (H a Ha).
  rewrite forallb_forall in H. specialize (H b Hb).
  apply orb_true_iff in H as [H|H]; [|done].
  by apply String.eqb_eq in H.
Qed.

Lemma collision_free_Permutation h rf l1 l2 :
  l1 ≡ₚ l2 -> collision_free h rf l1 = true -> collision_free h rf l2 = true.
Proof.
  intros Hp H. unfold collision_free.
  apply forallb_forall. intros a Ha. apply forallb_forall. intros b Hb.
  apply list_elem_of_In in Ha, Hb. rewrite <- Hp in Ha, Hb.
  destruct (String.eqb_spec a b) as [|Hne]; [done|]. simpl.
  by eapply collision_free_spec.
Qed.

(** The ring, the sorted set and the registry after a series of [add]
    calls depend on the set of names only. *)
Lemma fold_add_Permutation names1 names2 :
  names1 ≡ₚ names2 ->
  forall c,
    collision_free (hasher c) (replicationFactor c) names1 = true ->
    fold_left add (NewBin <$> names1) c = fold_left add (NewBin <$> names2) c.
Proof.
  induction 1 as [|x l1 l2 Hp IH|x y l|l1 l2 l3 Hp1 IH1 Hp2 IH2]; intros c Hc.
  - done.
  - simpl. apply IH. rewrite add_hasher, add_replicationFactor.
    unfold collision_free in *. simpl in Hc.
    apply andb_true_iff in Hc as [_ Hc].
    apply forallb_forall. intros a Ha.
    rewrite forallb_forall in Hc. specialize (Hc a Ha). simpl in Hc.
    by apply andb_true_iff in Hc as [_ Hc].
  - simpl. destruct (decide (x = y)) as [->|Hne]; [done|].
    rewrite (add_commute c (NewBin y) (NewBin x)); [done|simpl; congruence|].
    eapply collision_free_spec; [exact Hc| | |congruence].
    + apply elem_of_cons. by left.
    + apply elem_of_cons. right. apply elem_of_cons. by left.
  - rewrite IH1 by done. apply IH2. by eapply collision_free_Permutation.
Qed.

(** The distribution pass reads the configuration, the registry, the ring
    and the sorted set; the tables it replaces are not an input. *)
Lemma distributeWithLoad_loop_set_tables fuel c ps0 ls0 maxLoad partID count idx ps ls :
  distributeWithLoad_loop fuel (set_tables c ps0 ls0) maxLoad partID count idx ps ls
  = distributeWithLoad_loop fuel c maxLoad partID count idx ps ls.
Proof.
  revert count idx. induction fuel as [|fuel IH]; intros count idx; [done|].
  simpl. destruct (Z.of_nat (length (sortedSet c)) <=? count + 1); [done|].
  destruct (at_index (sortedSet c) idx) as [h|]; [|done].
  destruct (ring c !! h) as [bin|]; [|done].
  destruct (f64_leb _ _); [done|]. apply IH.
Qed.

Lemma distribute_loop_set_tables c ps0 ls0 ids ps ls :
  distribute_loop (set_tables c ps0 ls0) ids ps ls = distribute_loop c ids ps ls.
Proof.
  revert ps ls. induction ids as [|p ids IH]; intros ps ls; [done|].
  rewrite !distribute_loop_cons.
  change (start_index (set_tables c ps0 ls0)) with (start_index c).
  change (hasher (set_tables c ps0 ls0)) with (hasher c).
  unfold distributeWithLoad.
  change (MaximumLoad (set_tables c ps0 ls0)) with (MaximumLoad c).
  change (sortedSet (set_tables c ps0 ls0)) with (sortedSet c).
  rewrite distributeWithLoad_loop_set_tables.
  destruct (distributeWithLoad_loop _ _ _ _ _ _ _ _) as [[[ps1 ls1] [e|]]| |];
    done.
Qed.

Lemma add_set_tables c ps ls b :
  add (set_tables c ps ls) b = set_tables (add c b) ps ls.
Proof. by rewrite !add_unfold. Qed.

Lemma fold_add_set_tables bs c ps ls :
  fold_left add bs (set_tables c ps ls) = set_tables (fold_left add bs c) ps ls.
Proof.
  revert c. induction bs as [|b bs IH]; intros c; simpl; [done|].
  by rewrite add_set_tables, IH.
Qed.

Lemma fold_add_partition bs c : partition (fold_left add bs c) = partition c.
Proof.
  revert c. induction bs as [|b bs IH]; intros c; simpl; [done|].
  rewrite IH. by destruct (add_frame c b) as (_ & ? & _).
Qed.

(** After a non-empty series of successful [Add] calls the tables are
    those of one pass over the structure that the [add] calls alone
    build. *)
Lemma Add_all_tables bs c c' :
  Add_all c bs = Some c' -> bs <> [] ->
  pass_tables (fold_left add bs c) = Ret (partitions c', loads c', None).
Proof.
  revert c. induction bs as [|b bs IH]; intros c H Hne; [done|].
  simpl in H. destruct (Add c b) as [[c1 [e|]]| |] eqn:Ha; try discriminate.
  apply Add_Ret in Ha as [(? & _)|(_ & Ha)]; [discriminate|].
  apply distributePartitions_Ret in Ha as [(? & _)|(_ & ps & ls & Hd & ->)];
    [discriminate|].
  destruct bs as [|b' bs].
  - injection H as <-. exact Hd.
  - apply IH in H; [|done]. simpl fold_left in *.
    rewrite add_set_tables, fold_add_set_tables in H.
    unfold pass_tables in *. by rewrite distribute_loop_set_tables in H.
Qed.

Lemma Add_all_nil c c' : Add_all c [] = Some c' -> c' = c.
Proof. by intros [= <-]. Qed.

(** C8, as stated, fails: under a hasher that sends every label to the
    same position, the bin added last owns that position, so the two
    orders of adding [node0] and [node1] succeed with different tables. *)
Lemma Add_order_matters_under_collisions :
  Add_all (empty_consistent cfg_colliding) [node0; node1] = Some st_collide_ab /\
  Add_all (empty_consistent cfg_colliding) [node1; node0] = Some st_collide_ba /\
  partitions st_collide_ab = {[ 0 := node1 ]} /\
  partitions st_collide_ba = {[ 0 := node0 ]} /\
  partitions st_collide_ab <> partitions st_collide_ba /\
  loads st_collide_ab <> loads st_collide_ba.
Proof.
  split; [apply Some_by_parts; vm_compute; reflexivity|].
  split; [apply Some_by_parts; vm_compute; reflexivity|].
  split; [vm_compute; reflexivity|]. split; [vm_compute; reflexivity|].
  split.
  - intros E. apply (f_equal (fun m => Name <$> m !! 0)) in E.
    vm_compute in E. discriminate.
  - intros E. apply (f_equal (fun m => m !! "node0"%string)) in E.
    vm_compute in E. discriminate.
Qed.

(** C8, amended.  Two series of successful [Add] calls on the empty
    structure of the same configuration, whose bin names are a
    rearrangement of each other, end with identical partition tables and
    load tables, provided that no two different names of the series share
    a ring position under the hasher. *)
Theorem Add_order_independent cfg names1 names2 c1 c2 :
  names1 ≡ₚ names2 ->
  collision_free (Hasher_ cfg) (ReplicationFactor cfg) names1 = true ->
  Add_all (empty_consistent cfg) (NewBin <$> names1) = Some c1 ->
  Add_all (empty_consistent cfg) (NewBin <$> names2) = Some c2 ->
  partitions c1 = partitions c2 /\ loads c1 = loads c2.
Proof.
  intros Hp Hc H1 H2.
  destruct names1 as [|n1 names1].
  { apply Permutation_nil in Hp. subst names2.
    apply Add_all_nil in H1. apply Add_all_nil in H2. by subst. }
  destruct names2 as [|n2 names2]; [by apply Permutation_sym, Permutation_nil in Hp|].
  apply Add_all_tables in H1; [|done]. apply Add_all_tables in H2; [|done].
  rewrite (fold_add_Permutation _ _ Hp) in H1 by exact Hc.
  rewrite H1 in H2. by injection H2 as -> ->.
Qed.

Lemma Add_order_independent_witness :
  partitions st_test_a = partitions st_test_b /\ loads st_test_a = loads st_test_b.
Proof.
  apply (Add_order_independent cfg_test names_a names_b).
  - unfold names_a, names_b.
    apply (Permutation_trans (l' := ["node0"; "node2"; "node1"; "node3"]%string)).
    + apply perm_skip, perm_swap.
    + apply (Permutation_trans (l' := ["node2"; "node0"; "node1"; "node3"]%string)).
      * apply perm_swap.
      * do 2 apply perm_skip. apply perm_swap.
  - vm_compute. reflexivity.
  - apply Some_by_parts. vm_compute. reflexivity.
  - apply Some_by_parts. vm_compute. reflexivity.
Defined.

(** ** C9: a successful [Add] does not touch the ball registry *)

(** C9.  If [Add bin] succeeds, the ball registry (the map from partition
    ids to balls) of the resulting structure is the registry it had before
    the call, and the partition count against which [relocate] re-derives
    partition ids is unchanged: the grouping that [relocate] computes is
    local and dropped. *)
Theorem Add_preserves_ball_registry c bin c' :
  Add c bin = Ret (c', None) ->
  balls c' = balls c /\ partition c' = partition c.
Proof.
  intros H. apply Add_Ret in H as [(? & _)|(_ & H)]; [discriminate|].
  apply distributePartitions_Ret in H as [(? & _)|(_ & ps & ls & _ & ->)];
    [discriminate|].
  destruct (add_frame c bin) as (_ & Hp & _ & _ & _ & Hb & _).
  simpl. by rewrite Hb, Hp.
Qed.

Lemma Add_preserves_ball_registry_witness :
  balls st_small_2 = balls st_small_1b /\
  partition st_small_2 = partition st_small_1b.
Proof.
  apply (Add_preserves_ball_registry st_small_1b node1 st_small_2).
  apply Ret_by_parts. vm_compute. reflexivity.
Defined.

(** ** C10: a nil bin slice versus an empty one *)

(** C10.  For a configuration with a positive partition count, [New]
    with the nil slice succeeds and gives the empty structure (no bins, no
    ring positions, empty tables), while [New] with a slice that is not
    nil but has no element runs the distribution pass over zero bins and
    returns [ErrInsufficientPartitionCapacity]. *)
Theorem New_nil_versus_empty_slice cfg :
  0 < Partition cfg < 2 ^ 63 ->
  (exists c, New cfg None = Ret (inl c) /\
     bins c = ∅ /\ ring c = ∅ /\ sortedSet c = [] /\
     partitions c = ∅ /\ loads c = ∅ /\ balls c = ∅) /\
  New cfg (Some []) = Ret (inr ErrInsufficientPartitionCapacity).
Proof.
  intros HP. split.
  - exists (empty_consistent cfg). by rewrite New_nil.
  - unfold New, distributePartitions. simpl fold_left.
    assert (partition (empty_consistent cfg) = Partition cfg) as ->.
    { simpl. unfold uint64. apply Z.mod_small. lia. }
    unfold upto. rewrite seqZ_cons by lia. rewrite distribute_loop_cons.
    by rewrite distributeWithLoad_empty_ring.
Qed.

Lemma New_nil_versus_empty_slice_witness :
  (exists c, New cfg_small None = Ret (inl c) /\
     bins c = ∅ /\ ring c = ∅ /\ sortedSet c = [] /\
     partitions c = ∅ /\ loads c = ∅ /\ balls c = ∅) /\
  New cfg_small (Some []) = Ret (inr ErrInsufficientPartitionCapacity).
Proof. apply (New_nil_versus_empty_slice cfg_small). simpl. lia. Defined.

(** * Further properties *)

(** ** [delSlice] *)

Lemma delSlice_subset s val y : y ∈ delSlice s val -> y ∈ s.
Proof.
  induction s as [|x s IH]; simpl; [done|].
  destruct (x =? val); rewrite !elem_of_cons; [tauto|]. intros [?|?]; auto.
Qed.

Lemma delSlice_length s val :
  val ∈ s -> (length (delSlice s val) < length s)%nat.
Proof.
  induction s as [|x s IH]; [by intros ?%elem_of_nil|].
  simpl. destruct (Z.eqb_spec x val) as [->|Hne]; [lia|].
  rewrite elem_of_cons. intros [?|Hin]; [congruence|]. simpl.
  specialize (IH Hin). lia.
Qed.

(** X1.  When [val] occurs in the slice, [delSlice] removes its first
    occurrence and nothing else: the slice splits around an occurrence of
    [val] that no other precedes, and the result is the two parts put
    together. *)
Theorem delSlice_removes_first s val :
  val ∈ s ->
  exists l1 l2, s = l1 ++ val :: l2 /\ (val ∉ l1) /\ delSlice s val = l1 ++ l2.
Proof.
  induction s as [|x s IH]; [by intros ?%elem_of_nil|].
  intros Hin. simpl. destruct (Z.eqb_spec x val) as [->|Hne].
  - exists [], s. split; [done|]. split; [apply not_elem_of_nil|done].
  - apply elem_of_cons in Hin as [?|Hin]; [congruence|].
    destruct (IH Hin) as (l1 & l2 & -> & Hl1 & ->).
    exists (x :: l1), l2. split; [done|]. split; [|done].
    rewrite elem_of_cons. intros [?|?]; [congruence|done].
Qed.

Lemma delSlice_removes_first_witness :
  exists l1 l2, [3; 5; 5; 8] = l1 ++ 5 :: l2 /\ (5 ∉ l1) /\
    delSlice [3; 5; 5; 8] 5 = l1 ++ l2.
Proof.
  apply (delSlice_removes_first [3; 5; 5; 8] 5).
  apply elem_of_cons. right. apply elem_of_cons. by left.
Defined.

(** X2.  [delSlice] leaves the slice as it is exactly when [val] does not
    occur in it. *)
Theorem delSlice_unchanged_iff s val : delSlice s val = s <-> val ∉ s.
Proof.
  split.
  - intros E Hin. apply delSlice_length in Hin. rewrite E in Hin. lia.
  - induction s as [|x s IH]; [done|]. rewrite not_elem_of_cons. intros [Hne Hs].
    simpl. destruct (Z.eqb_spec x val); [congruence|]. by rewrite IH.
Qed.

Lemma delSlice_StronglySorted s val :
  StronglySorted Z.le s -> StronglySorted Z.le (delSlice s val).
Proof.
  induction 1 as [|x s Hs IH Hx]; simpl; [constructor|].
  destruct (x =? val); [done|]. constructor; [done|].
  apply Forall_forall. intros y Hy. apply delSlice_subset in Hy.
  by eapply Forall_forall in Hx.
Qed.

(** X3.  [delSlice] keeps an ascending slice ascending. *)
Theorem delSlice_keeps_ascending s val :
  Sorted Z.le s -> Sorted Z.le (delSlice s val).
Proof.
  intros Hs. apply Sorted_StronglySorted in Hs; [|apply _].
  apply StronglySorted_Sorted. by apply delSlice_StronglySorted.
Qed.

Lemma delSlice_keeps_ascending_witness : Sorted Z.le (delSlice [3; 5; 5; 8] 5).
Proof.
  apply (delSlice_keeps_ascending [3; 5; 5; 8] 5).
  repeat constructor; lia.
Defined.

(** ** [add]: the ring and the sorted set *)

Lemma replica_hashes_length h rf b :
  length (replica_hashes h rf b) = Z.to_nat rf.
Proof. unfold replica_hashes, upto. by rewrite length_fmap, length_seqZ. Qed.

Lemma add_sortedSet_Sorted c bin : Sorted Z.le (sortedSet (add c bin)).
Proof.
  rewrite add_unfold. simpl. unfold sort_ascending.
  apply Sorted_merge_sort; apply _.
Qed.

Lemma add_sortedSet_Permutation c bin :
  sortedSet (add c bin)
    ≡ₚ sortedSet c ++ replica_hashes (hasher c) (replicationFactor c) bin.
Proof.
  rewrite add_unfold. simpl. unfold sort_ascending. apply merge_sort_Permutation.
Qed.

(** X4.  After [add], the sorted set is ascending and holds its former
    positions together with the positions of the bin's replicas, one per
    replica (none for a replication factor that is not positive). *)
Theorem add_sorted_set c bin :
  Sorted Z.le (sortedSet (add c bin)) /\
  sortedSet (add c bin)
    ≡ₚ sortedSet c ++ replica_hashes (hasher c) (replicationFactor c) bin /\
  length (sortedSet (add c bin))
    = (length (sortedSet c) + Z.to_nat (replicationFactor c))%nat.
Proof.
  split; [apply add_sortedSet_Sorted|].
  split; [apply add_sortedSet_Permutation|].
  by rewrite add_sortedSet_Permutation, length_app, replica_hashes_length.
Qed.

(** X5.  After [add], every replica position of the bin leads to the bin
    on the ring, and every other position leads where it led before. *)
Theorem add_ring c bin h :
  ring (add c bin) !! h =
  if decide (h ∈ replica_hashes (hasher c) (replicationFactor c) bin)
  then Some bin else ring c !! h.
Proof. rewrite add_unfold. simpl. apply ring_insert_all_lookup. Qed.

(** ** The ring covers the sorted set *)

Lemma add_ring_covers c bin : ring_covers c -> ring_covers (add c bin).
Proof.
  intros Hc h Hh. rewrite add_sortedSet_Permutation in Hh.
  rewrite add_unfold. simpl. rewrite ring_insert_all_lookup.
  destruct (decide _) as [|Hn]; [eauto|].
  apply elem_of_app in Hh as [Hh|Hh]; [by apply Hc|done].
Qed.

Lemma fold_add_ring_covers bs c :
  ring_covers c -> ring_covers (fold_left add bs c).
Proof.
  revert c. induction bs as [|b bs IH]; intros c Hc; simpl; [done|].
  by apply IH, add_ring_covers.
Qed.

Lemma at_index_Some s i :
  0 <= i < Z.of_nat (length s) -> exists x, at_index s i = Some x /\ x ∈ s.
Proof.
  intros Hi. unfold at_index. destruct (Z.ltb_spec i 0); [lia|].
  destruct (lookup_lt_is_Some_2 s (Z.to_nat i)) as [x Hx]; [lia|].
  exists x. split; [done|]. by eapply list_elem_of_lookup_2.
Qed.

Lemma next_index_range c idx :
  0 <= idx < Z.of_nat (length (sortedSet c)) ->
  0 <= next_index c idx < Z.of_nat (length (sortedSet c)).
Proof.
  intros H. unfold next_index.
  destruct (Z.leb_spec (Z.of_nat (length (sortedSet c))) (idx + 1)); lia.
Qed.

Lemma distributeWithLoad_loop_no_panic fuel c maxLoad partID count idx ps ls :
  ring_covers c ->
  0 <= idx < Z.of_nat (length (sortedSet c)) ->
  distributeWithLoad_loop fuel c maxLoad partID count idx ps ls <> Panic.
Proof.
  intros Hc. revert count idx.
  induction fuel as [|fuel IH]; intros count idx Hi; simpl; [discriminate|].
  destruct (_ <=? _); [discriminate|].
  destruct (at_index_Some _ _ Hi) as (h & -> & Hh).
  destruct (Hc h Hh) as [bin ->].
  destruct (f64_leb _ _); [discriminate|].
  apply IH. by apply next_index_range.
Qed.

Lemma distributeWithLoad_no_panic c partID key ps ls :
  ring_covers c ->
  distributeWithLoad c partID (start_index c key) ps ls <> Panic.
Proof.
  intros Hc. destruct (sortedSet c) as [|x s] eqn:E.
  - by rewrite distributeWithLoad_empty_ring.
  - apply distributeWithLoad_loop_no_panic; [done|].
    apply start_index_range. by rewrite E.
Qed.

Lemma distribute_loop_no_panic c ids ps ls :
  ring_covers c -> distribute_loop c ids ps ls <> Panic.
Proof.
  intros Hc. revert ps ls.
  induction ids as [|p ids IH]; intros ps ls; [discriminate|].
  rewrite distribute_loop_cons.
  pose proof (distributeWithLoad_no_panic c (int_of_uint64 p)
                (Sum64 (hasher c) (PutUint64 p)) ps ls Hc) as Hn.
  destruct (distributeWithLoad _ _ _ _ _) as [[[ps' ls'] [e|]]| |];
    try discriminate; [apply IH|done].
Qed.

Lemma distributePartitions_returns c :
  ring_covers c -> exists c' e, distributePartitions c = Ret (c', e).
Proof.
  intros Hc. unfold distributePartitions.
  pose proof (distribute_loop_no_panic c (upto (partition c)) ∅
                (initial_loads (bins c)) Hc) as Hn.
  pose proof (distribute_loop_terminates c (upto (partition c)) ∅
                (initial_loads (bins c))) as Ht.
  destruct (distribute_loop _ _ _ _) as [[[ps ls] [e|]]| |]; try done; eauto.
Qed.

(** X6.  Given a configuration and its hasher, [New] always returns:
    whatever the parameters and the bins, the distribution pass it runs
    neither dereferences a missing ring entry nor indexes outside the
    sorted set. *)
Theorem New_returns cfg bs : exists r, New cfg bs = Ret r.
Proof.
  destruct bs as [bs|]; [|eauto using New_nil].
  unfold New. simpl.
  destruct (distributePartitions_returns (fold_left add bs (empty_consistent cfg)))
    as (c' & e & ->).
  { apply fold_add_ring_covers. intros h Hh. by apply elem_of_nil in Hh. }
  destruct e; eauto.
Qed.

(** X7.  On a structure whose ring covers its sorted set and whose
    partition count is not zero, [Add] returns (it does not panic), and
    the ring of the resulting structure still covers its sorted set. *)
Theorem Add_returns c bin :
  ring_covers c -> partition c <> 0 ->
  exists c' e, Add c bin = Ret (c', e) /\ ring_covers c'.
Proof.
  intros Hc HP. unfold Add. destruct (bins c !! Bin_String bin); [eauto|].
  destruct (distributePartitions_returns (add c bin)) as (c' & e & Hd);
    [by apply add_ring_covers|].
  rewrite Hd.
  assert (ring_covers c') as Hc'.
  { apply distributePartitions_Ret in Hd as [(_ & ->)|(_ & ps & ls & _ & ->)];
      by apply add_ring_covers. }
  destruct e as [e|]; [eauto|].
  assert (partition c' = partition c) as HP'.
  { apply distributePartitions_Ret in Hd as [(? & _)|(_ & ps & ls & _ & ->)];
      [done|]. simpl. by destruct (add_frame c bin) as (_ & ? & _). }
  assert (relocate c' = Ret tt) as ->; [|eauto].
  unfold relocate.
  assert (forall l nb, exists nb', relocate_loop c' l nb = Ret nb') as H.
  { induction l as [|[k b] l IH]; intros nb; simpl; [eauto|].
    unfold FindPartitionID. destruct (Z.eqb_spec (partition c') 0); [lia|]. apply IH. }
  by destruct (H (map_to_list (balls c')) ∅) as [nb' ->].
Qed.

Lemma Add_returns_witness :
  exists c' e, Add st_small_0 node0 = Ret (c', e) /\ ring_covers c'.
Proof.
  apply (Add_returns st_small_0 node0).
  - intros h Hh. by apply elem_of_nil in Hh.
  - vm_compute. discriminate.
Defined.

(** ** The sorted set stays ascending *)

Lemma Remove_sortedSet_fold (f : Z -> Z) l (r : gmap Z Bin) s :
  Sorted Z.le s ->
  Sorted Z.le
    (fold_left (fun '(r, s) i => let h := f i in (delete h r, delSlice s h))
       l (r, s)).2.
Proof.
  revert r s. induction l as [|i l IH]; intros r s Hs; simpl; [done|].
  apply IH. apply StronglySorted_Sorted, delSlice_StronglySorted.
  apply Sorted_StronglySorted; [apply _|done].
Qed.

(** X8.  [Add] and [Remove] keep the sorted set ascending: if it is
    ascending before the call, it is ascending in the structure the call
    leaves, whether the call succeeds or returns an error. *)
Theorem mutators_keep_ascending c bin c' e :
  Sorted Z.le (sortedSet c) ->
  Add c bin = Ret (c', e) \/ Remove c bin = Ret (c', e) ->
  Sorted Z.le (sortedSet c').
Proof.
  intros Hs [H|H].
  - apply Add_Ret in H as [(_ & -> & _)|(_ & H)]; [done|].
    apply distributePartitions_Ret in H as [(_ & ->)|(_ & ps & ls & _ & ->)];
      apply add_sortedSet_Sorted.
  - unfold Remove in H. destruct (bins c !! Bin_String bin).
    2:{ by injection H as <- <-. }
    pose proof (Remove_sortedSet_fold
                  (fun i => Sum64 (hasher c) (remove_label i bin))
                  (upto (replicationFactor c)) (ring c) (sortedSet c) Hs) as Hs'.
    destruct (fold_left _ _ _) as [r s]. simpl in Hs'. simpl in H.
    destruct (_ =? 0).
    + by injection H as <- <-.
    + apply distributePartitions_Ret in H as [(_ & ->)|(_ & ps & ls & _ & ->)];
        done.
Qed.

Lemma mutators_keep_ascending_witness : Sorted Z.le (sortedSet st_small_removed).
Proof.
  apply (mutators_keep_ascending st_small_1 node0 st_small_removed None).
  - assert (sortedSet st_small_1 = [574462308572603541; 8351434183451205750]) as ->
      by (vm_compute; reflexivity).
    repeat constructor. lia.
  - right. apply Ret_by_parts. vm_compute. reflexivity.
Defined.

(** ** [sort.Search] and the start of the walk *)

(** The binary search returns the least index at which a monotone test
    holds, or the length when it holds nowhere. *)
Lemma Search_loop_least f n fuel i j :
  (forall a b, 0 <= a <= b -> b < n -> f a = true -> f b = true) ->
  0 <= i <= j -> j <= n -> j - i < Z.of_nat fuel ->
  (forall k, 0 <= k < i -> f k = false) ->
  (forall k, j <= k < n -> f k = true) ->
  let r := Search_loop fuel f i j in
  i <= r <= j /\
  (forall k, 0 <= k < r -> f k = false) /\ (forall k, r <= k < n -> f k = true).
Proof.
  intros Hmono. revert i j.
  induction fuel as [|fuel IH]; intros i j Hij Hjn Hf Hlo Hhi; [lia|].
  simpl. destruct (Z.ltb_spec i j) as [Hlt|Hge].
  2:{ assert (i = j) by lia. subst. repeat split; auto; lia. }
  assert (i <= Z.shiftr (i + j) 1 < j) as Hh.
  { rewrite Z.shiftr_div_pow2 by lia. change (2 ^ 1) with 2.
    split; [apply Z.div_le_lower_bound|apply Z.div_lt_upper_bound]; lia. }
  set (h := Z.shiftr (i + j) 1) in *.
  destruct (f h) eqn:Efh.
  - destruct (IH i h) as (Hr & H1 & H2); try lia; [done| |].
    { intros k Hk. apply (Hmono h k); [lia|lia|done]. }
    repeat split; auto; lia.
  - destruct (IH (h + 1) j) as (Hr & H1 & H2); try lia; [|done|].
    { intros k Hk. destruct (f k) eqn:Efk; [|done].
      rewrite (Hmono k h) in Efh; [done|lia|lia|done]. }
    repeat split; auto; lia.
Qed.

Lemma Sorted_lookup_le (s : list Z) (i j : nat) (x y : Z) :
  Sorted Z.le s -> (i <= j)%nat -> s !! i = Some x -> s !! j = Some y -> x <= y.
Proof.
  intros Hs. apply Sorted_StronglySorted in Hs; [|apply _].
  revert i j. induction Hs as [|z s Hs IH Hz]; intros i j Hij Hi Hj; [done|].
  destruct i as [|i], j as [|j]; simpl in *; try lia.
  - injection Hi as ->. injection Hj as ->. lia.
  - injection Hi as ->. eapply Forall_forall in Hz; [exact Hz|].
    by eapply list_elem_of_lookup_2.
  - eapply (IH i j); [lia|done..].
Qed.

(** X9.  On an ascending sorted set that is not empty, the walk for an
    anchor hash starts at the successor of the hash: the index of the
    first position that is not below the hash, every earlier position
    being below it; or index 0 when every position is below the hash. *)
Theorem start_index_successor c key :
  Sorted Z.le (sortedSet c) -> sortedSet c <> [] ->
  let idx := start_index c key in
  (exists x, sortedSet c !! Z.to_nat idx = Some x /\ key <= x /\
     forall j y, (j < Z.to_nat idx)%nat -> sortedSet c !! j = Some y -> y < key) \/
  (idx = 0 /\ forall y, y ∈ sortedSet c -> y < key).
Proof.
  intros Hs Hne. unfold start_index.
  set (n := Z.of_nat (length (sortedSet c))).
  set (f := fun i => match at_index (sortedSet c) i with
                     | Some x => key <=? x
                     | None => false
                     end).
  assert (0 < n) as Hn by (unfold n; destruct (sortedSet c); simpl in *; [done|lia]).
  destruct (Search_loop_least f n (S (Z.to_nat n)) 0 n) as (Hr & Hlo & Hhi);
    try lia.
  { intros a b Hab Hb. unfold f, at_index.
    destruct (Z.ltb_spec a 0), (Z.ltb_spec b 0); try lia.
    destruct (sortedSet c !! Z.to_nat a) as [x|] eqn:Ea; [|done].
    destruct (lookup_lt_is_Some_2 (sortedSet c) (Z.to_nat b)) as [y Eb];
      [unfold n in Hb; lia|].
    rewrite Eb. intros Hx%Z.leb_le. apply Z.leb_le.
    pose proof (Sorted_lookup_le _ (Z.to_nat a) (Z.to_nat b) x y Hs
                  ltac:(lia) Ea Eb). lia. }
  fold (Search n f). fold (Search n f) in Hr, Hlo, Hhi.
  generalize dependent (Search n f). intros r Hr Hlo Hhi. simpl.
  assert (forall k y, 0 <= k < r -> sortedSet c !! Z.to_nat k = Some y -> y < key)
    as Hbelow.
  { intros k y Hk Hy. specialize (Hlo k Hk). unfold f, at_index in Hlo.
    destruct (Z.ltb_spec k 0); [lia|]. rewrite Hy in Hlo.
    apply Z.leb_gt in Hlo. lia. }
  destruct (Z.leb_spec n r) as [Hge|Hlt].
  - right. split; [done|]. intros y Hy.
    apply list_elem_of_lookup in Hy as [j Hj].
    pose proof (lookup_lt_Some _ _ _ Hj).
    apply (Hbelow (Z.of_nat j)); [unfold n in *; lia|]. by rewrite Nat2Z.id.
  - left. specialize (Hhi r ltac:(lia)). unfold f, at_index in Hhi.
    destruct (Z.ltb_spec r 0); [lia|].
    destruct (sortedSet c !! Z.to_nat r) as [x|] eqn:Ex; [|done].
    exists x. split; [done|]. split; [by apply Z.leb_le|].
    intros j y Hj Hy. apply (Hbelow (Z.of_nat j)); [lia|]. by rewrite Nat2Z.id.
Qed.

Lemma start_index_successor_witness :
  let idx := start_index st_test 0 in
  (exists x, sortedSet st_test !! Z.to_nat idx = Some x /\ 0 <= x /\
     forall j y, (j < Z.to_nat idx)%nat -> sortedSet st_test !! j = Some y -> y < 0) \/
  (idx = 0 /\ forall y, y ∈ sortedSet st_test -> y < 0).
Proof.
  apply (start_index_successor st_test 0).
  - apply add_sortedSet_Sorted.
  - intros E. apply (f_equal length) in E. vm_compute in E. discriminate.
Defined.

(** ** The walk of [distributeWithLoad] *)

Lemma probe_index_S c idx k :
  probe_index c (next_index c idx) k = probe_index c idx (S k).
Proof. unfold probe_index. by rewrite Nat.iter_succ_r. Qed.

(** On a valid start index the [k]-th probe is [k] positions further on
    the ring, wrapping at the end of the sorted set. *)
Lemma probe_index_mod c idx k :
  0 <= idx < Z.of_nat (length (sortedSet c)) ->
  probe_index c idx k = (idx + Z.of_nat k) mod Z.of_nat (length (sortedSet c)).
Proof.
  intros Hi. unfold probe_index. induction k as [|k IH].
  - change (Z.of_nat 0) with 0. rewrite Z.add_0_r, Z.mod_small by lia. done.
  - change (Nat.iter (S k) (next_index c) idx)
      with (next_index c (Nat.iter k (next_index c) idx)).
    rewrite IH. unfold next_index.
    remember (Z.of_nat (length (sortedSet c))) as n eqn:En. clear En.
    replace (idx + Z.of_nat (S k)) with ((idx + Z.of_nat k) + 1) by lia.
    pose proof (Z.mod_pos_bound (idx + Z.of_nat k) n ltac:(lia)) as Hm.
    rewrite <- (Zplus_mod_idemp_l (idx + Z.of_nat k) 1 n).
    destruct (Z.leb_spec n ((idx + Z.of_nat k) mod n + 1)).
    + replace ((idx + Z.of_nat k) mod n + 1) with n by lia.
      by rewrite Z_mod_same_full.
    + rewrite (Z.mod_small ((idx + Z.of_nat k) mod n + 1)) by lia. done.
Qed.

Lemma distributeWithLoad_loop_walk fuel c partID count idx ps ls ps' ls' e :
  distributeWithLoad_loop fuel c (MaximumLoad c) partID count idx ps ls
    = Ret (ps', ls', e) ->
  match e with
  | None =>
      exists k bin,
        count + 1 + Z.of_nat k < Z.of_nat (length (sortedSet c)) /\
        bin_at c (probe_index c idx k) = Some bin /\ has_room c ls bin = true /\
        (forall j, (j < k)%nat ->
           exists b, bin_at c (probe_index c idx j) = Some b /\ has_room c ls b = false) /\
        ps' = <[partID := bin]> ps /\
        ls' = <[Bin_String bin := load_of ls (Bin_String bin) ++ [partID]]> ls
  | Some _ =>
      forall j, count + 1 + Z.of_nat j < Z.of_nat (length (sortedSet c)) ->
        exists b, bin_at c (probe_index c idx j) = Some b /\ has_room c ls b = false
  end.
Proof.
  revert count idx.
  induction fuel as [|fuel IH]; intros count idx; simpl; [discriminate|].
  destruct (Z.leb_spec (Z.of_nat (length (sortedSet c))) (count + 1)) as [Hlen|Hlen].
  { intros [= <- <- <-]. intros j Hj. lia. }
  destruct (at_index (sortedSet c) idx) as [h|] eqn:Hh; [|discriminate].
  destruct (ring c !! h) as [bin|] eqn:Hb; [|discriminate].
  assert (bin_at c idx = Some bin) as Hbin by (unfold bin_at; by rewrite Hh).
  destruct (f64_leb _ _) eqn:Hle.
  - intros [= <- <- <-]. exists 0%nat, bin. simpl.
    repeat split; try done; [lia|]. intros j Hj. lia.
  - intros H. apply IH in H. fold (next_index c idx) in H. destruct e as [e|].
    + intros [|j] Hj; [simpl; eauto|].
      rewrite <- probe_index_S. apply H. lia.
    + destruct H as (k & b & Hk & Hat & Hroom & Hfull & -> & ->).
      exists (S k), b. rewrite <- probe_index_S.
      repeat split; try done; [lia|].
      intros [|j] Hj; [simpl; eauto|]. rewrite <- probe_index_S. apply Hfull. lia.
Qed.

(** X10.  When [distributeWithLoad] gives the partition to a bin, that
    bin is first-fit on the walk: it sits at the [k]-th probe from the
    start index for some [k] below the number of positions less one, it
    passed the load test, the bins at all earlier probes failed it, and
    the two tables are updated for that bin and nothing else. *)
Theorem distributeWithLoad_first_fit c partID idx ps ls ps' ls' :
  distributeWithLoad c partID idx ps ls = Ret (ps', ls', None) ->
  exists k bin,
    Z.of_nat k < Z.of_nat (length (sortedSet c)) - 1 /\
    bin_at c (probe_index c idx k) = Some bin /\ has_room c ls bin = true /\
    (forall j, (j < k)%nat ->
       exists b, bin_at c (probe_index c idx j) = Some b /\ has_room c ls b = false) /\
    ps' = <[partID := bin]> ps /\
    ls' = <[Bin_String bin := load_of ls (Bin_String bin) ++ [partID]]> ls.
Proof.
  intros H. apply distributeWithLoad_loop_walk in H
    as (k & bin & Hk & Hat & Hroom & Hfull & -> & ->).
  exists k, bin. repeat split; try done. lia.
Qed.

Lemma distributeWithLoad_first_fit_witness :
  exists k bin,
    Z.of_nat k < Z.of_nat (length (sortedSet st_pair)) - 1 /\
    bin_at st_pair (probe_index st_pair 0 k) = Some bin /\
    has_room st_pair (initial_loads (bins st_pair)) bin = true /\
    (forall j, (j < k)%nat ->
       exists b, bin_at st_pair (probe_index st_pair 0 j) = Some b /\
         has_room st_pair (initial_loads (bins st_pair)) b = false) /\
    pair_partitions_1 = <[0 := bin]> ∅ /\
    pair_loads_1
      = <[Bin_String bin :=
            load_of (initial_loads (bins st_pair)) (Bin_String bin) ++ [0]]>
          (initial_loads (bins st_pair)).
Proof.
  apply (distributeWithLoad_first_fit st_pair 0 0 ∅ (initial_loads (bins st_pair))).
  vm_compute. reflexivity.
Defined.

(** X11.  When [distributeWithLoad] reports
    [ErrInsufficientPartitionCapacity], it leaves the two tables as they
    were, and the bins at the probes it made, which are all but the last
    of a full round from the start index, all failed the load test. *)
Theorem distributeWithLoad_error c partID idx ps ls ps' ls' e :
  distributeWithLoad c partID idx ps ls = Ret (ps', ls', Some e) ->
  e = ErrInsufficientPartitionCapacity /\ ps' = ps /\ ls' = ls /\
  forall j, Z.of_nat j < Z.of_nat (length (sortedSet c)) - 1 ->
    exists b, bin_at c (probe_index c idx j) = Some b /\ has_room c ls b = false.
Proof.
  intros H. pose proof H as H'. unfold distributeWithLoad in H, H'.
  apply distributeWithLoad_loop_Ret in H' as [(He & -> & ->)|(? & _)];
    [|discriminate].
  injection He as ->. repeat split; try done.
  apply distributeWithLoad_loop_walk in H. intros j Hj. apply H. lia.
Qed.

Lemma distributeWithLoad_error_witness :
  ErrInsufficientPartitionCapacity = ErrInsufficientPartitionCapacity /\
  pair_partitions_1 = pair_partitions_1 /\ pair_loads_1 = pair_loads_1 /\
  forall j, Z.of_nat j < Z.of_nat (length (sortedSet st_pair)) - 1 ->
    exists b, bin_at st_pair (probe_index st_pair 0 j) = Some b /\
      has_room st_pair pair_loads_1 b = false.
Proof.
  apply (distributeWithLoad_error st_pair 1 0 pair_partitions_1 pair_loads_1).
  vm_compute. reflexivity.
Defined.

(** ** The owner of a partition *)

Lemma distribute_loop_owner_on_ring c ids ps ls :
  distribute_loop c ids ∅ (initial_loads (bins c)) = Ret (ps, ls, None) ->
  forall p b, ps !! p = Some b ->
    exists h, h ∈ sortedSet c /\ ring c !! h = Some b.
Proof.
  intros H.
  refine (distribute_loop_invariant c
            (fun _ ps _ => forall p b, ps !! p = Some b ->
               exists h, h ∈ sortedSet c /\ ring c !! h = Some b)
            _ ids [] ∅ (initial_loads (bins c)) ps ls _ H).
  - intros done partID ps0 ls0 h bin IH Hh Hb _ p b.
    destruct (decide (partID = p)) as [->|Hne].
    + rewrite lookup_insert_eq. intros [= <-]. eauto.
    + rewrite lookup_insert_ne by done. apply IH.
  - intros p b. by rewrite lookup_empty.
Qed.

(** X12.  After a successful distribution pass, [GetPartitionOwner]
    returns a bin for every partition id of [0 .. partition-1] and nil
    for every other id, and a bin it returns has a position on the
    ring. *)
Theorem GetPartitionOwner_after_pass c c' partID :
  distributePartitions c = Ret (c', None) ->
  partition c <= 2 ^ 63 ->
  (is_Some (GetPartitionOwner c' partID) <-> 0 <= partID < partition c) /\
  (forall b, GetPartitionOwner c' partID = Some b ->
     exists h, h ∈ sortedSet c' /\ ring c' !! h = Some b).
Proof.
  intros H HP.
  apply distributePartitions_Ret in H as [(? & _)|(_ & ps & ls & H & ->)];
    [discriminate|].
  unfold GetPartitionOwner. simpl. split.
  - apply distribute_loop_covers in H as (Hdom & _).
    rewrite int_of_uint64_upto in Hdom by done.
    rewrite Hdom. unfold upto. rewrite elem_of_seqZ. lia.
  - intros b Hb. by eapply distribute_loop_owner_on_ring.
Qed.

Lemma GetPartitionOwner_after_pass_witness :
  (is_Some (GetPartitionOwner st_test_distributed 22) <-> 0 <= 22 < partition st_test) /\
  (forall b, GetPartitionOwner st_test_distributed 22 = Some b ->
     exists h, h ∈ sortedSet st_test_distributed /\
       ring st_test_distributed !! h = Some b).
Proof.
  apply (GetPartitionOwner_after_pass st_test st_test_distributed 22).
  - apply Ret_by_parts. vm_compute. reflexivity.
  - vm_compute. discriminate.
Defined.

(** ** The bin registry *)

Lemma Add_bins c bin c' e :
  Add c bin = Ret (c', e) ->
  bins c' = if e is Some ErrBinAlreadyExist then bins c
            else <[Bin_String bin := bin]> (bins c).
Proof.
  intros H. apply Add_Ret in H as [(-> & -> & _)|(_ & H)]; [done|].
  destruct (add_frame c bin) as (_ & _ & _ & _ & _ & _ & _ & Hb).
  apply distributePartitions_Ret in H as [(-> & ->)|(-> & ps & ls & _ & ->)];
    by rewrite <- Hb.
Qed.

Lemma Remove_bins c bin c' e :
  Remove c bin = Ret (c', e) -> bins c' = delete (Bin_String bin) (bins c).
Proof.
  unfold Remove. destruct (bins c !! Bin_String bin) eqn:Hb.
  2:{ intros [= <- <-]. by rewrite delete_id. }
  destruct (fold_left _ _ _) as [r s]. simpl. destruct (_ =? 0).
  - by intros [= <- <-].
  - intros H.
    by apply distributePartitions_Ret in H as [(_ & ->)|(_ & ps & ls & _ & ->)].
Qed.

(** X13.  [Add] returns [ErrBinAlreadyExist] exactly when a bin of that
    name is registered, and then the structure is unchanged. *)
Theorem Add_already_exists_iff c bin c' :
  Add c bin = Ret (c', Some ErrBinAlreadyExist)
  <-> is_Some (bins c !! Bin_String bin) /\ c' = c.
Proof.
  split.
  - intros H. apply Add_Ret in H as [(_ & -> & Hb)|(_ & H)]; [done|].
    by apply distributePartitions_Ret in H as [([= ?] & _)|(? & _)].
  - intros [[b Hb] ->]. unfold Add. by rewrite Hb.
Qed.

(** X14.  The only error that [New] and [Remove] return is
    [ErrInsufficientPartitionCapacity]. *)
Theorem New_Remove_error cfg bs c bin c' e :
  New cfg bs = Ret (inr e) \/ Remove c bin = Ret (c', Some e) ->
  e = ErrInsufficientPartitionCapacity.
Proof.
  intros [H|H].
  - destruct bs as [bs|]; [|discriminate]. unfold New in H. simpl in H.
    destruct (distributePartitions _) as [[c1 [e1|]]| |] eqn:Hd; try discriminate.
    injection H as ->.
    by apply distributePartitions_Ret in Hd as [([= ?] & _)|(? & _)].
  - unfold Remove in H. destruct (bins c !! Bin_String bin); [|discriminate].
    destruct (fold_left _ _ _) as [r s]. simpl in H.
    destruct (_ =? 0); [discriminate|].
    by apply distributePartitions_Ret in H as [([= ?] & _)|(? & _)].
Qed.

Lemma New_Remove_error_witness :
  ErrInsufficientPartitionCapacity = ErrInsufficientPartitionCapacity.
Proof.
  apply (New_Remove_error cfg_pair (Some [node0; node1]) st_small_0 node0 st_small_0).
  left. vm_compute. reflexivity.
Defined.

(** X15.  After [Add] has returned with anything but
    [ErrBinAlreadyExist], also with [ErrInsufficientPartitionCapacity],
    [GetBin] finds the added bin under its name, and answers for every
    other name as it did before. *)
Theorem GetBin_after_Add c bin c' e name :
  Add c bin = Ret (c', e) -> e <> Some ErrBinAlreadyExist ->
  GetBin c' name = if decide (name = Bin_String bin) then inl bin else GetBin c name.
Proof.
  intros H He. apply Add_bins in H. unfold GetBin. rewrite H.
  destruct e as [[]|]; try done;
    (destruct (decide _) as [->|?];
     [by rewrite lookup_insert_eq|by rewrite lookup_insert_ne]).
Qed.

Lemma GetBin_after_Add_witness :
  GetBin st_tight_1 "node0"
  = if decide ("node0"%string = Bin_String node0) then inl node0
    else GetBin st_tight_0 "node0".
Proof.
  apply (GetBin_after_Add st_tight_0 node0 st_tight_1
           (Some ErrInsufficientPartitionCapacity)).
  - apply Ret_by_parts. vm_compute. reflexivity.
  - discriminate.
Defined.

(** X16.  After [Remove] has returned, with or without an error,
    [GetBin] answers [ErrBinNotFound] for the name of the removed bin
    and answers for every other name as it did before. *)
Theorem GetBin_after_Remove c bin c' e name :
  Remove c bin = Ret (c', e) ->
  GetBin c' name
  = if decide (name = Bin_String bin) then inr ErrBinNotFound else GetBin c name.
Proof.
  intros H. apply Remove_bins in H. unfold GetBin. rewrite H.
  destruct (decide _) as [->|?];
    [by rewrite lookup_delete_eq|by rewrite lookup_delete_ne].
Qed.

Lemma GetBin_after_Remove_witness :
  GetBin st_small_removed "node0"
  = if decide ("node0"%string = Bin_String node0) then inr ErrBinNotFound
    else GetBin st_small_1 "node0".
Proof.
  apply (GetBin_after_Remove st_small_1 node0 st_small_removed None).
  apply Ret_by_parts. vm_compute. reflexivity.
Defined.

(** X17.  Adding a bin whose name is not registered and then removing it
    gives back the bin registry of before, whatever the two calls
    return. *)
Theorem Add_Remove_registry c bin c1 e1 c2 e2 :
  bins c !! Bin_String bin = None ->
  Add c bin = Ret (c1, e1) -> Remove c1 bin = Ret (c2, e2) ->
  bins c2 = bins c.
Proof.
  intros Hb H1 H2. apply Remove_bins in H2. rewrite H2.
  assert (e1 <> Some ErrBinAlreadyExist) as He.
  { intros ->. apply Add_Ret in H1 as [(_ & _ & [b Hb'])|(_ & H1)]; [congruence|].
    by apply distributePartitions_Ret in H1 as [([= ?] & _)|(? & _)]. }
  apply Add_bins in H1. rewrite H1.
  destruct e1 as [[]|]; try done; by rewrite delete_insert_eq, delete_id.
Qed.

Lemma Add_Remove_registry_witness : bins st_small_removed = bins st_small_0.
Proof.
  apply (Add_Remove_registry st_small_0 node0 st_small_1 None st_small_removed None).
  - vm_compute. reflexivity.
  - apply Ret_by_parts. vm_compute. reflexivity.
  - apply Ret_by_parts. vm_compute. reflexivity.
Defined.

(** [GetBins] lists every registered bin once per name it is registered
    under. *)
Lemma GetBins_registry c :
  length (GetBins c) = size (bins c) /\
  forall b, b ∈ GetBins c <-> exists name, bins c !! name = Some b.
Proof.
  unfold GetBins. split.
  - by rewrite length_fmap, length_map_to_list.
  - intros b. rewrite list_elem_of_fmap. split.
    + intros ([k b'] & -> & H). exists k. by apply elem_of_map_to_list.
    + intros [k H]. exists (k, b). split; [done|]. by apply elem_of_map_to_list.
Qed.

(** X18.  [Add] makes the list of [GetBins] one longer, except when it
    returns [ErrBinAlreadyExist], which leaves the length as it is. *)
Theorem GetBins_after_Add c bin c' e :
  Add c bin = Ret (c', e) ->
  length (GetBins c')
  = if e is Some ErrBinAlreadyExist then length (GetBins c)
    else S (length (GetBins c)).
Proof.
  intros H. destruct (GetBins_registry c) as [-> _].
  destruct (GetBins_registry c') as [-> _].
  pose proof (Add_bins _ _ _ _ H) as Hb.
  apply Add_Ret in H as [(-> & -> & _)|(Hn & _)]; [done|].
  destruct e as [[]|]; rewrite Hb; try done; by rewrite map_size_insert_None.
Qed.

Lemma GetBins_after_Add_witness :
  length (GetBins st_small_2)
  = if (None : option error) is Some ErrBinAlreadyExist
    then length (GetBins st_small_1b) else S (length (GetBins st_small_1b)).
Proof.
  apply (GetBins_after_Add st_small_1b node1 st_small_2 None).
  apply Ret_by_parts. vm_compute. reflexivity.
Defined.

Lemma fold_add_bins bs c name :
  is_Some (bins (fold_left add bs c) !! name)
  <-> name ∈ Bin_String <$> bs \/ is_Some (bins c !! name).
Proof.
  revert c. induction bs as [|b bs IH]; intros c; simpl.
  - rewrite elem_of_nil. tauto.
  - rewrite IH, elem_of_cons.
    destruct (add_frame c b) as (_ & _ & _ & _ & _ & _ & _ & ->).
    destruct (decide (Bin_String b = name)) as [->|Hne].
    + rewrite lookup_insert_eq. split; [auto|]. intros _. right. eauto.
    + rewrite lookup_insert_ne by done. split; intros [?|?]; auto.
      destruct H; [congruence|auto].
Qed.

(** X19.  When [New] succeeds on a slice of bins, the names that
    [GetBin] finds are exactly the names of the bins of the slice. *)
Theorem New_registers_bins cfg bs c name :
  New cfg (Some bs) = Ret (inl c) ->
  (exists b, GetBin c name = inl b) <-> name ∈ Bin_String <$> bs.
Proof.
  intros H. apply New_runs_pass in H.
  apply distributePartitions_Ret in H as [(? & _)|(_ & ps & ls & _ & ->)];
    [discriminate|].
  unfold GetBin. simpl.
  pose proof (fold_add_bins bs (empty_consistent cfg) name) as Hb.
  simpl in Hb. rewrite lookup_empty in Hb.
  destruct (bins (fold_left add bs (empty_consistent cfg)) !! name) as [b|].
  - split; [intros _|eauto]. destruct Hb as [Hb _].
    destruct Hb as [?|[? ?]]; [eauto|done|done].
  - split; [by intros [? ?]|]. intros Hn.
    destruct Hb as [_ Hb]. destruct Hb as [? ?]; [auto|done].
Qed.

(** ** Balls: [FindPartitionID], [Locate], [Delete], [GetBalls] *)

(** X20.  With a partition count that is positive (and fits a Go [int]),
    [FindPartitionID] returns a partition id of [0 .. partition-1]. *)
Theorem FindPartitionID_range c key :
  0 < partition c <= 2 ^ 63 ->
  exists p, FindPartitionID c key = Ret p /\ 0 <= p < partition c.
Proof.
  intros HP. unfold FindPartitionID.
  destruct (Z.eqb_spec (partition c) 0); [lia|].
  eexists. split; [done|].
  pose proof (Z.mod_pos_bound (Sum64 (hasher c) key) (partition c) ltac:(lia)).
  unfold int_of_uint64.
  destruct (Z.ltb_spec (Sum64 (hasher c) key `mod` partition c) (2 ^ 63)); lia.
Qed.

Lemma FindPartitionID_range_witness :
  exists p, FindPartitionID st_test (bytes_of_string "data0") = Ret p /\
    0 <= p < partition st_test.
Proof.
  apply (FindPartitionID_range st_test (bytes_of_string "data0")).
  vm_compute. split; [reflexivity|discriminate].
Defined.

Lemma Locate_Ret c ball c' o :
  Locate c ball = Ret (c', o) ->
  exists p, FindPartitionID c ball = Ret p /\
    c' = set_balls c (<[p := ball]> (balls c)) /\ o = GetPartitionOwner c p.
Proof.
  unfold Locate. destruct (FindPartitionID c ball) as [p| |]; try discriminate.
  intros [= <- <-]. eauto.
Qed.

Lemma FindPartitionID_set_balls c bs key :
  FindPartitionID (set_balls c bs) key = FindPartitionID c key.
Proof. reflexivity. Qed.

(** X21.  [Locate] is idempotent: locating the same ball again returns
    the same bin and leaves the structure as the first call left it. *)
Theorem Locate_idempotent c ball c' o :
  Locate c ball = Ret (c', o) -> Locate c' ball = Ret (c', o).
Proof.
  intros H. apply Locate_Ret in H as (p & Hp & -> & ->).
  unfold Locate. rewrite FindPartitionID_set_balls, Hp. simpl.
  by rewrite insert_insert_eq.
Qed.

Lemma Locate_idempotent_witness :
  Locate st_small_1b (bytes_of_string "data0")
  = Ret (st_small_1b, GetPartitionOwner st_small_1 0).
Proof.
  apply (Locate_idempotent st_small_1 (bytes_of_string "data0")).
  apply Ret_by_parts. vm_compute. reflexivity.
Defined.

(** X22.  The ball registry holds one ball per partition: when two
    balls have the same partition id, locating the first and then the
    second leaves the structure that locating the second alone leaves. *)
Theorem Locate_replaces c ball1 ball2 c1 o1 c2 o2 :
  FindPartitionID c ball1 = FindPartitionID c ball2 ->
  Locate c ball1 = Ret (c1, o1) -> Locate c1 ball2 = Ret (c2, o2) ->
  Locate c ball2 = Ret (c2, o2).
Proof.
  intros E H1 H2. apply Locate_Ret in H1 as (p & Hp & -> & ->).
  apply Locate_Ret in H2 as (q & Hq & -> & ->).
  rewrite FindPartitionID_set_balls in Hq.
  assert (q = p) as -> by congruence.
  unfold Locate. rewrite Hq. simpl. by rewrite insert_insert_eq.
Qed.

(** [Locate] registers the ball under its partition id and changes no
    other entry of the ball registry. *)
Lemma Locate_registers c ball c' o :
  Locate c ball = Ret (c', o) ->
  exists p, FindPartitionID c ball = Ret p /\
    balls c' !! p = Some ball /\
    (forall q, q <> p -> balls c' !! q = balls c !! q) /\
    o = GetPartitionOwner c' p.
Proof.
  intros H. apply Locate_Ret in H as (p & Hp & -> & ->).
  exists p. simpl. split; [done|]. split; [by rewrite lookup_insert_eq|].
  split; [|done]. intros q Hq. by rewrite lookup_insert_ne.
Qed.

Lemma Delete_exist c ball :
  existsb (fun kb : Z * Ball => String.eqb (Ball_String kb.2) (Ball_String ball))
    (map_to_list (balls c)) = true
  <-> exists p b, balls c !! p = Some b /\ Ball_String b = Ball_String ball.
Proof.
  rewrite existsb_exists. split.
  - intros ([p b] & Hin & Hb). simpl in Hb. apply String.eqb_eq in Hb.
    exists p, b. split; [|done]. by apply elem_of_map_to_list, list_elem_of_In.
  - intros (p & b & Hp & Hb). exists (p, b). split.
    + by apply list_elem_of_In, elem_of_map_to_list.
    + by apply String.eqb_eq.
Qed.

(** X23.  [Delete] returns [ErrBallNotFound] exactly when no registered
    ball renders as the same string as the given ball, and then the
    structure is unchanged. *)
Theorem Delete_not_found_iff c ball c' :
  Delete c ball = (c', Some ErrBallNotFound)
  <-> (forall p b, balls c !! p = Some b -> Ball_String b <> Ball_String ball) /\
      c' = c.
Proof.
  unfold Delete.
  destruct (existsb _ _) eqn:E.
  - apply Delete_exist in E as (p & b & Hp & Hb). split; [discriminate|].
    intros [Hn _]. by destruct (Hn p b).
  - split; [|by intros [_ ->]]. intros [= <-]. split; [|done].
    intros p b Hp Hb.
    assert (exists p b, balls c !! p = Some b /\ Ball_String b = Ball_String ball)
      as H by eauto.
    apply Delete_exist in H. congruence.
Qed.

(** X24.  When [Delete] succeeds, no registered ball renders as the same
    string as the deleted one any more, and every other ball is
    registered exactly where it was. *)
Theorem Delete_removes c ball c' :
  Delete c ball = (c', None) ->
  forall p b, balls c' !! p = Some b
    <-> balls c !! p = Some b /\ Ball_String b <> Ball_String ball.
Proof.
  unfold Delete. destruct (existsb _ _); [|discriminate].
  intros [= <-] p b. simpl. rewrite map_lookup_filter_Some. simpl.
  split; intros [H1 H2]; (split; [done|]).
  - intros E. apply String.eqb_eq in E. congruence.
  - destruct (String.eqb _ _) eqn:E; [|done]. by apply String.eqb_eq in E.
Qed.

Lemma pair_by_parts {A B} (x : A * B) (b : B) : x.2 = b -> x = (x.1, b).
Proof. destruct x. simpl. by intros ->. Qed.

Lemma Delete_removes_witness :
  balls (Delete st_small_1b (bytes_of_string "data0")).1 !! 0
    = Some (bytes_of_string "data1")
  <-> balls st_small_1b !! 0 = Some (bytes_of_string "data1") /\
      Ball_String (bytes_of_string "data1") <> Ball_String (bytes_of_string "data0").
Proof.
  apply (Delete_removes st_small_1b (bytes_of_string "data0")).
  apply pair_by_parts. vm_compute. reflexivity.
Defined.

(** X25.  After [Locate] of a ball, [Delete] of that ball succeeds; and
    a second [Delete] of it returns [ErrBallNotFound]. *)
Theorem Locate_Delete_Delete c ball c1 o :
  Locate c ball = Ret (c1, o) ->
  exists c2, Delete c1 ball = (c2, None) /\
    Delete c2 ball = (c2, Some ErrBallNotFound).
Proof.
  intros H. apply Locate_registers in H as (p & _ & Hp & _).
  assert (exists p b, balls c1 !! p = Some b /\ Ball_String b = Ball_String ball)
    as Hex by eauto.
  apply Delete_exist in Hex. unfold Delete at 1. rewrite Hex. clear Hex.
  eexists. split; [done|].
  set (c2 := set_balls c1 _).
  destruct (existsb (fun kb : Z * Ball =>
                       String.eqb (Ball_String kb.2) (Ball_String ball))
              (map_to_list (balls c2))) eqn:E.
  - apply Delete_exist in E as (q & b & Hq & Hb). subst c2. simpl in Hq.
    apply map_lookup_filter_Some in Hq as [_ Hq]. simpl in Hq.
    apply String.eqb_eq in Hb. congruence.
  - unfold Delete. by rewrite E.
Qed.

Lemma Locate_Delete_Delete_witness :
  exists c2, Delete st_small_1b (bytes_of_string "data0") = (c2, None) /\
    Delete c2 (bytes_of_string "data0") = (c2, Some ErrBallNotFound).
Proof.
  apply (Locate_Delete_Delete st_small_1 (bytes_of_string "data0") st_small_1b
           (GetPartitionOwner st_small_1 0)).
  apply Ret_by_parts. vm_compute. reflexivity.
Defined.

(** [GetBalls] answers [ErrBinNotFound] when the load table has no slice
    for the bin's name; otherwise a ball is in the answer exactly when it
    is registered under a partition of that slice. *)
Lemma GetBalls_spec c bin :
  match GetBalls c bin with
  | inr e => e = ErrBinNotFound /\ loads c !! Bin_String bin = None
  | inl l =>
      is_Some (loads c !! Bin_String bin) /\
      forall ball, ball ∈ l <->
        exists p, p ∈ load_of (loads c) (Bin_String bin) /\ balls c !! p = Some ball
  end.
Proof.
  unfold GetBalls, load_of. destruct (loads c !! Bin_String bin) as [ids|]; simpl.
  - split; [eauto|]. intros ball. apply list_elem_of_omap.
  - done.
Qed.

(** A successful pass makes the two tables agree. *)
Lemma pass_tables_agree c c' :
  distributePartitions c = Ret (c', None) -> tables_agree c'.
Proof.
  intros H.
  apply distributePartitions_Ret in H as [(? & _)|(_ & ps & ls & H & ->)];
    [discriminate|].
  by apply distribute_loop_covers in H as (_ & H & _).
Qed.

(** X26.  On a structure whose tables agree, as they do after a
    successful distribution pass, a ball that [Locate] places with some
    bin is among the balls that [GetBalls] reports for that bin; and the
    tables still agree afterwards. *)
Theorem Locate_then_GetBalls c ball c' bin :
  tables_agree c ->
  Locate c ball = Ret (c', Some bin) ->
  (exists l, GetBalls c' bin = inl l /\ ball ∈ l) /\ tables_agree c'.
Proof.
  intros Hagree H.
  apply Locate_Ret in H as (p & Hp & -> & Ho). split; [|done].
  symmetry in Ho. apply Hagree in Ho.
  pose proof (GetBalls_spec (set_balls c (<[p:=ball]> (balls c))) bin) as Hl.
  unfold GetBalls, load_of in *. simpl in *.
  destruct (loads c !! Bin_String bin) as [ids|]; simpl in *;
    [|by apply elem_of_nil in Ho].
  destruct Hl as [_ Hl]. eexists. split; [done|]. apply Hl. exists p.
  split; [done|]. by rewrite lookup_insert_eq.
Qed.

Lemma Locate_then_GetBalls_witness :
  (exists l,
     GetBalls (state_of (Locate st_test_distributed (bytes_of_string "data0"))
                 st_test_distributed) node1 = inl l /\
     bytes_of_string "data0" ∈ l) /\
  tables_agree (state_of (Locate st_test_distributed (bytes_of_string "data0"))
                  st_test_distributed).
Proof.
  apply (Locate_then_GetBalls st_test_distributed (bytes_of_string "data0")).
  - apply (pass_tables_agree st_test). apply Ret_by_parts. vm_compute. reflexivity.
  - apply Ret_by_parts. vm_compute. reflexivity.
Defined.

(** ** What the calls leave alone *)

(** X27.  [Remove] changes neither the ball registry nor the
    configuration, whatever it returns. *)
Theorem Remove_frame c bin c' e :
  Remove c bin = Ret (c', e) ->
  balls c' = balls c /\ hasher c' = hasher c /\ partition c' = partition c /\
  replicationFactor c' = replicationFactor c /\
  loadBalancingParameter c' = loadBalancingParameter c.
Proof.
  unfold Remove. destruct (bins c !! Bin_String bin); [|by intros [= <- <-]].
  destruct (fold_left _ _ _) as [r s]. simpl. destruct (_ =? 0).
  - by intros [= <- <-].
  - intros H.
    by apply distributePartitions_Ret in H as [(_ & ->)|(_ & ps & ls & _ & ->)].
Qed.

Lemma Remove_frame_witness :
  balls st_small_removed = balls st_small_1 /\
  hasher st_small_removed = hasher st_small_1 /\
  partition st_small_removed = partition st_small_1 /\
  replicationFactor st_small_removed = replicationFactor st_small_1 /\
  loadBalancingParameter st_small_removed = loadBalancingParameter st_small_1.
Proof.
  apply (Remove_frame st_small_1 node0 st_small_removed None).
  apply Ret_by_parts. vm_compute. reflexivity.
Defined.

Lemma Locate_replaces_witness :
  Locate st_small_1 (bytes_of_string "data1")
  = Ret (state_of (Locate st_small_1b (bytes_of_string "data1")) st_small_1b,
         GetPartitionOwner st_small_1 0).
Proof.
  apply (Locate_replaces st_small_1 (bytes_of_string "data0")
           (bytes_of_string "data1") st_small_1b (GetPartitionOwner st_small_1 0)).
  - vm_compute. reflexivity.
  - apply Ret_by_parts. vm_compute. reflexivity.
  - apply Ret_by_parts. vm_compute. reflexivity.
Defined.

Lemma New_by_parts (r : result (Consistent + error)) (d : Consistent) :
  match r with Ret (inl _) => true | _ => false end = true ->
  r = Ret (inl (constructed r d)).
Proof. by destruct r as [[c|e]| |]. Qed.

Lemma New_registers_bins_witness :
  (exists b,
     GetBin (constructed (New cfg_test (Some [node0; node1; node2; node3]))
               (empty_consistent cfg_test)) "node2" = inl b)
  <-> "node2"%string ∈ Bin_String <$> [node0; node1; node2; node3].
Proof.
  apply (New_registers_bins cfg_test [node0; node1; node2; node3]).
  apply New_by_parts. vm_compute. reflexivity.
Defined.

(** ** [MaximumLoad] and [LoadDistribution] *)

(** X28.  On a structure without bins, with a positive partition count
    and a positive finite load parameter, [MaximumLoad] is the positive
    infinity: the division by the zero bin count does not panic. *)
Theorem MaximumLoad_without_bins c m e :
  bins c = ∅ -> 0 < partition c < 2 ^ 53 ->
  loadBalancingParameter c = S754_finite false m e ->
  MaximumLoad c = S754_infinity false.
Proof.
  intros Hb HP Hl. unfold MaximumLoad. rewrite Hb, map_size_empty, Hl.
  destruct (float64_of_Z_positive (partition c) HP) as (mp & ep & ->).
  reflexivity.
Qed.

Lemma MaximumLoad_without_bins_witness :
  MaximumLoad st_small_0 = S754_infinity false.
Proof.
  apply (MaximumLoad_without_bins st_small_0 4503599627370496 (-52)).
  - reflexivity.
  - vm_compute. split; reflexivity.
  - reflexivity.
Defined.

Lemma shl_inj p q k : shl p k = shl q k -> p = q.
Proof.
  intros E. apply (f_equal Z.pos) in E. rewrite !shl_Z in E.
  apply Z.mul_cancel_r in E; [by injection E|].
  apply Z.pow_nonzero; lia.
Qed.

(** Below [2^53] the conversion of a count to [float64] loses nothing. *)
Lemma float64_of_Z_inj a b :
  0 <= a < 2 ^ 53 -> 0 <= b < 2 ^ 53 ->
  float64_of_Z a = float64_of_Z b -> a = b.
Proof.
  intros Ha Hb. destruct a as [|p|p], b as [|q|q]; try lia; try done.
  - rewrite (float64_of_Z_pos q) by lia. discriminate.
  - rewrite (float64_of_Z_pos p) by lia. discriminate.
  - rewrite (float64_of_Z_pos p), (float64_of_Z_pos q) by lia.
    intros [= Em Ee]. assert (digits2_pos p = digits2_pos q) as Ed by lia.
    rewrite Ed in Em. by apply shl_inj in Em as ->.
Qed.

(** X29.  [LoadDistribution] has an entry for every name of the load
    table, and (for slices shorter than [2^53]) two names are reported
    with the same load only if their slices hold the same number of
    partitions. *)
Theorem LoadDistribution_exact c n1 n2 l1 l2 :
  loads c !! n1 = Some l1 -> loads c !! n2 = Some l2 ->
  Z.of_nat (length l1) < 2 ^ 53 -> Z.of_nat (length l2) < 2 ^ 53 ->
  is_Some (LoadDistribution c !! n1) /\
  (LoadDistribution c !! n1 = LoadDistribution c !! n2 -> length l1 = length l2).
Proof.
  intros H1 H2 Hl1 Hl2. unfold LoadDistribution. rewrite !lookup_fmap, H1, H2.
  simpl. split; [eauto|]. intros [= E].
  apply float64_of_Z_inj in E; lia.
Qed.

Lemma LoadDistribution_exact_witness :
  is_Some (LoadDistribution st_test_distributed !! "node0") /\
  (LoadDistribution st_test_distributed !! "node0"
   = LoadDistribution st_test_distributed !! "node1" ->
   length [2; 6; 11; 13; 14; 15; 16] = length [0; 1; 3; 7; 9; 10; 12]).
Proof.
  apply (LoadDistribution_exact st_test_distributed "node0" "node1").
  - vm_compute. reflexivity.
  - vm_compute. reflexivity.
  - vm_compute. reflexivity.
  - vm_compute. reflexivity.
Defined.
